(** * Sub-pixel template matching (template_matching.py)

    A shallow embedding of [template_matching.py]: the helpers
    [__pull_matrix] and [__find_max_subpixel_roi] and the two public entry
    points [template_tracking] and [template_tracking_dual].

    Conventions of the embedding.
    - Python integers are [Z]; Python/NumPy floating-point values are exact
      rationals [Q], every operation kept in the order the source writes it.
      The bounds of the region of interest, the one place where a float is
      turned into an index, are computed in IEEE binary64 ([f64]: each
      operation rounded to the nearest double, ties to even) and cast to a
      64-bit integer; elsewhere the rounding error of the individual float
      operations is not modelled.
    - A raised exception is the [Raise] case of [result]; the source has no
      [try]/[except], so an exception of a callee is the result of the
      caller.
    - The OpenCV and SciPy routines the source calls ([cv2.matchTemplate],
      [cv2.minMaxLoc], [interpolate.interp2d], [optimize.fmin]) are the
      fields of the record [Primitives]. *)

From Stdlib Require Import ZArith QArith Qround Qabs Qpower List Lia Lqa Bool.
Import ListNotations.
Open Scope Z_scope.

(* ================================================================== *)
(** ** Exceptions and the error monad *)

Inductive exn : Type :=
| IndexError
| ValueError
| CvError.

Inductive result (A : Type) : Type :=
| Ok (a : A)
| Raise (e : exn).

Arguments Ok {A} a.
Arguments Raise {A} e.

Definition bind {A B : Type} (m : result A) (k : A -> result B) : result B :=
  match m with
  | Ok a => k a
  | Raise e => Raise e
  end.

Notation "x <- m ;; k" := (bind m (fun x => k))
  (at level 61, m at next level, right associativity).

(* ================================================================== *)
(** ** Python sequences: [len], [range], slices and integer indexing *)

Module Py.

Definition len {A : Type} (l : list A) : Z := Z.of_nat (length l).

(** [range(a, b)]: the integers [a], [a+1], ..., [b-1]; empty when
    [b <= a]. *)
Definition range (a b : Z) : list Z :=
  map (fun n => a + Z.of_nat n) (seq 0 (Z.to_nat (b - a))).

(** A slice bound [i] on a sequence of length [n]: a negative bound counts
    from the end, and the result is clipped to [0..n]. *)
Definition slice_bound (n i : Z) : Z :=
  if i <? 0 then Z.max 0 (i + n) else Z.min i n.

(** Length of [s[a:b]] for a sequence [s] of length [n]. *)
Definition slice_len (n a b : Z) : Z :=
  Z.max 0 (slice_bound n b - slice_bound n a).

(** [l[a:b]]; it never raises. *)
Definition slice {A : Type} (l : list A) (a b : Z) : list A :=
  let n := len l in
  let a' := slice_bound n a in
  let b' := slice_bound n b in
  firstn (Z.to_nat (b' - a')) (skipn (Z.to_nat a') l).

(** [l[i]] for an integer [i]: an index in [-n..-1] counts from the end,
    an index outside [-n..n-1] raises [IndexError]. *)
Definition getitem {A : Type} (l : list A) (i : Z) : result A :=
  let n := len l in
  if (i <? - n) || (n <=? i) then Raise IndexError
  else
    match nth_error l (Z.to_nat (if i <? 0 then i + n else i)) with
    | Some a => Ok a
    | None => Raise IndexError
    end.

End Py.

(* ================================================================== *)
(** ** NumPy: two-dimensional arrays, [np.around], [np.arange] *)

(** A 2-D array is its list of rows together with the row length (NumPy keeps
    the second dimension of an array that has no rows). *)
Record ndarray (A : Type) : Type := mk_ndarray {
  ncols : Z;
  rows : list (list A)
}.

Arguments mk_ndarray {A} ncols rows.
Arguments ncols {A} n.
Arguments rows {A} n.

(** [a.shape], as (height, width). *)
Definition shape {A : Type} (a : ndarray A) : Z * Z :=
  (Py.len (rows a), ncols a).

(** Every row has [ncols] entries. *)
Definition wf_ndarray {A : Type} (a : ndarray A) : Prop :=
  Forall (fun r => Py.len r = ncols a) (rows a).

(** [a[ys:ye, xs:xe]] *)
Definition slice2 {A : Type} (a : ndarray A) (ys ye xs xe : Z) : ndarray A :=
  mk_ndarray (Py.slice_len (ncols a) xs xe)
             (map (fun r => Py.slice r xs xe) (Py.slice (rows a) ys ye)).

(** [a[y][x]] read as a total function (default [d] outside the array);
    used in statements only. *)
Definition entry {A : Type} (d : A) (a : list (list A)) (y x : Z) : A :=
  nth (Z.to_nat x) (nth (Z.to_nat y) a []) d.

(** The integer nearest to [q], a tie going to the even neighbour: the value
    of [np.around(q)]. *)
Definition around (q : Q) : Z :=
  let f := Qfloor q in
  match Qcompare (q - inject_Z f) (1 # 2) with
  | Lt => f
  | Gt => f + 1
  | Eq => if Z.even f then f else f + 1
  end.

(** *** IEEE binary64

    A finite double is the rational it stands for; infinities and NaN are
    the one value [NonFinite] (nothing below tells them apart). *)

Definition pow2 (e : Z) : Q := (2 ^ e)%Q.

(** [floor (log2 |q|)] for [q <> 0]. *)
Definition ilog2 (q : Q) : Z :=
  let l := Z.log2 (Z.abs (Qnum q)) - Z.log2 (Zpos (Qden q)) in
  if Qle_bool (pow2 l) (Qabs q) then l else l - 1.

(** The exponent of the unit in the last place of [q]: 53 significant bits,
    and no bit below [2^-1074]. *)
Definition ulp_exp (q : Q) : Z := Z.max (ilog2 q - 52) (-1074).

(** [q] rounded to the nearest multiple of its unit in the last place, ties
    to even. *)
Definition fl (q : Q) : Q :=
  if Qeq_bool q 0 then 0%Q
  else (inject_Z (around (q * pow2 (- ulp_exp q))) * pow2 (ulp_exp q))%Q.

Inductive f64 : Type :=
| Finite (q : Q)
| NonFinite.

(** Rounding to binary64: a result of magnitude [2^1024] or more overflows. *)
Definition f64_round (q : Q) : f64 :=
  let r := fl q in
  if Qle_bool (pow2 1024) (Qabs r) then NonFinite else Finite r.

(** A Python number (an int, or a float that is already a double) as a
    double, and an int as a double. Python refuses to convert an int beyond
    the largest double and raises [OverflowError]; here such an operand is
    [NonFinite], and [convertible] below rules it out. *)
Definition f64_of_Q (q : Q) : f64 := f64_round q.
Definition f64_of_Z (z : Z) : f64 := f64_round (inject_Z z).

(** [a / b] on Python ints [a], [b <> 0]: the quotient, correctly rounded. *)
Definition f64_truediv (a b : Z) : f64 := f64_round (inject_Z a / inject_Z b).

Definition f64_sub (a b : f64) : f64 :=
  match a, b with
  | Finite x, Finite y => f64_round (x - y)
  | _, _ => NonFinite
  end.

Definition f64_add (a b : f64) : f64 :=
  match a, b with
  | Finite x, Finite y => f64_round (x + y)
  | _, _ => NonFinite
  end.

(** [np.around(a)] on a double: the result is again a double. *)
Definition np_around (a : f64) : f64 :=
  match a with
  | Finite x => Finite (inject_Z (around x))
  | NonFinite => NonFinite
  end.

Definition Qtrunc (x : Q) : Z := if Qle_bool 0 x then Qfloor x else Qceiling x.

(** [a.astype(int)]: truncation to a 64-bit integer; a value outside
    [-2^63 .. 2^63 - 1], an infinity or a NaN gives [-2^63] (the x86-64
    conversion). *)
Definition astype_int (a : f64) : Z :=
  match a with
  | Finite x =>
      let z := Qtrunc x in
      if (- 2 ^ 63 <=? z) && (z <? 2 ^ 63) then z else - 2 ^ 63
  | NonFinite => - 2 ^ 63
  end.

(** [np.arange(a, b, 1)] *)
Definition arange (a b : Z) : list Q := map inject_Z (Py.range a b).

(** Frames and templates hold integer samples, correlation surfaces hold
    scores; a position is the pair [[x, y]]. *)
Definition image : Type := ndarray Z.
Definition surface : Type := ndarray Q.
Definition position : Type := (Q * Q)%type.

(* ================================================================== *)
(** ** The external routines *)

Record Primitives : Type := mk_Primitives {
  (** [cv2.matchTemplate(roi, templ, cv2.TM_CCOEFF_NORMED)] *)
  matchTemplate : image -> image -> result surface;
  (** the [max_loc] component of [cv2.minMaxLoc(res)], as [(x, y)] *)
  minMaxLoc : surface -> result (Z * Z);
  (** [interpolate.interp2d(x, y, z, kind='cubic')] *)
  interp2d : list Q -> list Q -> list (list Q) -> result (Q -> Q -> Q);
  (** [optimize.fmin(func, x0, disp=False)] *)
  fmin : (Q * Q -> Q) -> Q * Q -> result (Q * Q)
}.

(* ================================================================== *)
(** ** Helpers of the source *)

(** The loop of [__pull_matrix]: one row slice appended per index [i]. *)
Fixpoint pull_rows (frame : surface) (lo hi : Z) (idx : list Z)
         (mat : list (list Q)) : result (list (list Q)) :=
  match idx with
  | [] => Ok mat
  | i :: idx' =>
      row <- Py.getitem (rows frame) i ;;
      pull_rows frame lo hi idx' (mat ++ [Py.slice row lo hi])
  end.

(** [__pull_matrix(size, frame, loc)]; [int((size - 1) / 2)] truncates
    towards zero. *)
Definition pull_matrix (size : Z) (frame : surface) (loc : Z * Z)
  : result (list (list Q)) :=
  let size := Z.quot (size - 1) 2 in
  pull_rows frame (fst loc - size) (fst loc + size + 1)
            (Py.range (snd loc - size) (snd loc + size + 1)) [].

(** Lines 30-37 of [__find_max_subpixel_roi]: the bounds [(xs, xe, ys, ye)]
    of the region of interest. *)
Definition roi_bounds (fh fw h w : Z) (pos : position) (offset : Z)
  : Z * Z * Z * Z :=
  let xs := astype_int (np_around
              (f64_sub (f64_sub (f64_of_Q (fst pos)) (f64_truediv w 2))
                       (f64_of_Z offset))) in
  let xs := if xs <? 0 then 0 else xs in
  let xe := astype_int (np_around
              (f64_add (f64_add (f64_of_Q (fst pos)) (f64_truediv w 2))
                       (f64_of_Z offset))) in
  let xe := if xe >=? fw then fw - 1 else xe in
  let ys := astype_int (np_around
              (f64_sub (f64_sub (f64_of_Q (snd pos)) (f64_truediv h 2))
                       (f64_of_Z offset))) in
  let ys := if ys <? 0 then 0 else ys in
  let ye := astype_int (np_around
              (f64_add (f64_add (f64_of_Q (snd pos)) (f64_truediv h 2))
                       (f64_of_Z offset))) in
  let ye := if ye >=? fh then fh - 1 else ye in
  (xs, xe, ys, ye).

(** Line 39: [roi = frame[ys:ye, xs:xe]]. *)
Definition roi_of (frame templ : image) (pos : position) (offset : Z) : image :=
  let '(h, w) := shape templ in
  let '(fh, fw) := shape frame in
  let '(xs, xe, ys, ye) := roi_bounds fh fw h w pos offset in
  slice2 frame ys ye xs xe.

(** [__find_max_subpixel_roi(frame, templ, pos, offset, matsize)] *)
Definition find_max_subpixel_roi (P : Primitives) (frame templ : image)
           (pos : position) (offset matsize : Z) : result position :=
  let '(h, w) := shape templ in
  let '(fh, fw) := shape frame in
  let '(xs, xe, ys, ye) := roi_bounds fh fw h w pos offset in
  let roi := slice2 frame ys ye xs xe in
  res <- matchTemplate P roi templ ;;
  max_loc <- minMaxLoc P res ;;
  mat <- pull_matrix matsize res max_loc ;;
  let xy := arange 0 matsize in
  f <- interp2d P xy xy mat ;;
  let nf := fun d : Q * Q => (- f (fst d) (snd d))%Q in
  max_loc2 <- fmin P nf ((inject_Z (matsize - 1) / 2)%Q,
                         (inject_Z (matsize - 1) / 2)%Q) ;;
  let '(x, y) := shape templ in
  let nx := (inject_Z (fst max_loc) - (2 - fst max_loc2) + inject_Z y / 2)%Q in
  let ny := (inject_Z (snd max_loc) - (2 - snd max_loc2) + inject_Z x / 2)%Q in
  let nx := (inject_Z xs + nx)%Q in
  let ny := (inject_Z ys + ny)%Q in
  Ok (nx, ny).

(* ================================================================== *)
(** ** Template tracking *)

(** The [for frame in frame_array] loop of [template_tracking], with its two
    mutable variables [currp] and [points]. *)
Fixpoint tracking_loop (P : Primitives) (template : image)
         (roi_offset_size interpol_mat_size : Z)
         (frame_array : list image) (currp : position)
         (points : list position) : result (list position) :=
  match frame_array with
  | [] => Ok points
  | frame :: rest =>
      currp <- find_max_subpixel_roi P frame template currp
                 roi_offset_size interpol_mat_size ;;
      tracking_loop P template roi_offset_size interpol_mat_size
                    rest currp (points ++ [currp])
  end.

Definition template_tracking (P : Primitives) (frame_array : list image)
           (template : image) (initial_position : position)
           (roi_offset_size interpol_mat_size : Z) : result (list position) :=
  tracking_loop P template roi_offset_size interpol_mat_size
                frame_array initial_position [].

(** The loop of [template_tracking_dual], with [pl], [pr] and [points]. *)
Fixpoint tracking_dual_loop (P : Primitives) (left_template right_template : image)
         (roi_offset_size interpol_mat_size : Z)
         (frame_array : list image) (pl pr : position)
         (points : list (position * position))
  : result (list (position * position)) :=
  match frame_array with
  | [] => Ok points
  | frame :: rest =>
      pl <- find_max_subpixel_roi P frame left_template pl
              roi_offset_size interpol_mat_size ;;
      pr <- find_max_subpixel_roi P frame right_template pr
              roi_offset_size interpol_mat_size ;;
      tracking_dual_loop P left_template right_template
                         roi_offset_size interpol_mat_size
                         rest pl pr (points ++ [(pl, pr)])
  end.

Definition template_tracking_dual (P : Primitives) (frame_array : list image)
           (left_template right_template : image)
           (initial_position : position * position)
           (roi_offset_size interpol_mat_size : Z)
  : result (list (position * position)) :=
  tracking_dual_loop P left_template right_template
                     roi_offset_size interpol_mat_size
                     frame_array (fst initial_position) (snd initial_position) [].

(* ================================================================== *)
(** ** The trajectory as the specification words it *)

(** Section 4.5 and 9 of the specification: the tracker is a left fold over
    the frame sequence whose state is the current position [curr]; each
    frame replaces [curr] by the refined position and appends it to the
    trajectory. [step frame curr] is the per-frame refinement. *)
Definition track_scan (step : image -> position -> result position)
           (init : position) (frames : list image) : result (list position) :=
  st <- fold_left
          (fun acc frame =>
             st <- acc ;;
             curr <- step frame (fst st) ;;
             Ok (curr, snd st ++ [curr]))
          frames (Ok (init, [])) ;;
  Ok (snd st).

(** The position that frame [i]'s region of interest is computed from, read
    off a trajectory: the initial position for frame 0, element [i-1]
    afterwards. *)
Definition fed_position (init : position) (traj : list position) (i : nat)
  : position :=
  match i with
  | O => init
  | S j => nth j traj init
  end.

(* ================================================================== *)
(** ** The correlation primitive, from its contract *)

Module Cv2Model.

(** Modelled from the spec: [cv2.matchTemplate] is an OpenCV routine and is
    not part of the repository. Sections 4.2 and 6 of the specification
    give its contract: it fails when the region of interest is smaller
    than the template in either dimension, and otherwise returns a surface
    of size [(roi_h - templ_h + 1) x (roi_w - templ_w + 1)]. The score of
    the template placed at column [x], row [y] of the region is the
    parameter [score]. *)
Definition matchTemplate (score : image -> image -> Z -> Z -> Q)
           (roi templ : image) : result surface :=
  let '(rh, rw) := shape roi in
  let '(th, tw) := shape templ in
  if (rh <? th) || (rw <? tw) then Raise CvError
  else
    Ok (mk_ndarray (rw - tw + 1)
          (map (fun y => map (fun x => score roi templ x y)
                             (Py.range 0 (rw - tw + 1)))
               (Py.range 0 (rh - th + 1)))).

(** One row of the scan for the maximum: [best] is the largest score seen
    so far with its location; a later score replaces it only when it is
    strictly larger. *)
Fixpoint scan_row (row : list Q) (x y : Z) (best : option (Q * (Z * Z)))
  : option (Q * (Z * Z)) :=
  match row with
  | [] => best
  | v :: row' =>
      let best' :=
        match best with
        | None => Some (v, (x, y))
        | Some (b, _) =>
            match Qcompare b v with
            | Lt => Some (v, (x, y))
            | _ => best
            end
        end in
      scan_row row' (x + 1) y best'
  end.

Fixpoint scan_rows (rs : list (list Q)) (y : Z) (best : option (Q * (Z * Z)))
  : option (Q * (Z * Z)) :=
  match rs with
  | [] => best
  | r :: rs' => scan_rows rs' (y + 1) (scan_row r 0 y best)
  end.

(** Modelled from the spec: [cv2.minMaxLoc] is an OpenCV routine and is not
    part of the repository. Section 4.2 of the specification: it locates
    the discrete global maximum [(mx, my)] of the surface (here: the first
    one in row-major order); a surface without entries has none. *)
Definition minMaxLoc (res : surface) : result (Z * Z) :=
  match scan_rows (rows res) 0 None with
  | Some (_, loc) => Ok loc
  | None => Raise CvError
  end.

End Cv2Model.

(* ================================================================== *)
(** ** A small executable instance of the external routines

    Used to run the embedding on concrete frames: a sum-of-squared-differences
    score, a nearest-sample surface and a one-poll pattern search. *)

Module Toy.

Definition sum_Z (l : list Z) : Z := fold_right Z.add 0 l.

(** Minus the sum of squared differences between the template and the
    window of the region whose top-left corner is column [x], row [y]. *)
Definition ssd_score (roi templ : image) (x y : Z) : Q :=
  let '(th, tw) := shape templ in
  inject_Z
    (- sum_Z (map (fun j =>
          sum_Z (map (fun i =>
                   let d := entry 0 (rows roi) (y + j) (x + i)
                            - entry 0 (rows templ) j i in
                   d * d)
                (Py.range 0 tw)))
        (Py.range 0 th))).

(** The surface through the samples [z] on the grid [x] by [y]: the value
    of the nearest sample. The sample matrix must have one row per [y] and
    one column per [x]. *)
Definition nearest_interp (x y : list Q) (z : list (list Q))
  : result (Q -> Q -> Q) :=
  if (Py.len z =? Py.len y)
     && forallb (fun r => Py.len r =? Py.len x) z
  then Ok (fun u v => entry 0%Q z (around v) (around u))
  else Raise ValueError.

(** One poll of a pattern search with step 1/2 around the start. *)
Definition poll_fmin (func : Q * Q -> Q) (x0 : Q * Q) : result (Q * Q) :=
  let cands := [ ((fst x0 + (1 # 2))%Q, snd x0);
                 ((fst x0 - (1 # 2))%Q, snd x0);
                 (fst x0, (snd x0 + (1 # 2))%Q);
                 (fst x0, (snd x0 - (1 # 2))%Q) ] in
  Ok (fold_left
        (fun best c =>
           match Qcompare (func c) (func best) with
           | Lt => c
           | _ => best
           end)
        cands x0).

Definition prims : Primitives :=
  mk_Primitives (Cv2Model.matchTemplate ssd_score) Cv2Model.minMaxLoc
                nearest_interp poll_fmin.

(** A 7 x 7 frame with a bright 3 x 3 blob centred on column 3, row 3, and
    the 3 x 3 template cut from it. *)
Definition frame7 : image :=
  mk_ndarray 7
    [ [0; 0; 0; 0; 0; 0; 0];
      [0; 0; 0; 0; 0; 0; 0];
      [0; 0; 5; 7; 5; 0; 0];
      [0; 0; 7; 9; 7; 0; 0];
      [0; 0; 5; 7; 5; 0; 0];
      [0; 0; 0; 0; 0; 0; 0];
      [0; 0; 0; 0; 0; 0; 0] ].

Definition templ3 : image :=
  mk_ndarray 3 [ [5; 7; 5]; [7; 9; 7]; [5; 7; 5] ].

Definition frames3 : list image := [frame7; frame7; frame7].

(** A template with no samples. *)
Definition templ0 : image := mk_ndarray 0 [].

(** A 5 x 5 surface whose entry at row [r], column [c] is [10 r + c]. *)
Definition surf5 : surface :=
  mk_ndarray 5
    (map (fun r => map (fun c => inject_Z (10 * r + c)) (Py.range 0 5))
         (Py.range 0 5)).

End Toy.

(* ================================================================== *)
(** ** An instance whose correlation treats undersized images as OpenCV does

    OpenCV's [matchTemplate] does not reject every image that is smaller
    than the template: when the image is smaller in one dimension and not
    larger in the other, it exchanges image and template and correlates the
    image inside the template; it raises only when the image is smaller in
    one dimension and larger in the other. The remaining routines are those
    of [Toy]. *)

Module OpenCv.

Definition matchTemplate (score : image -> image -> Z -> Z -> Q)
           (img templ : image) : result surface :=
  let '(ih, iw) := shape img in
  let '(th, tw) := shape templ in
  let needswap := (ih <? th) || (iw <? tw) in
  if needswap then
    if (ih <=? th) && (iw <=? tw) then
      Ok (mk_ndarray (tw - iw + 1)
            (map (fun y => map (fun x => score templ img x y)
                               (Py.range 0 (tw - iw + 1)))
                 (Py.range 0 (th - ih + 1))))
    else Raise CvError
  else
    Ok (mk_ndarray (iw - tw + 1)
          (map (fun y => map (fun x => score img templ x y)
                             (Py.range 0 (iw - tw + 1)))
               (Py.range 0 (ih - th + 1)))).

Definition prims : Primitives :=
  mk_Primitives (matchTemplate Toy.ssd_score) Cv2Model.minMaxLoc
                Toy.nearest_interp Toy.poll_fmin.

(** A 12 x 12 template that holds the top-left 6 x 6 corner of
    [Toy.frame7] at its rows and columns 3 to 8 and is 0 elsewhere. *)
Definition templ12 : image :=
  mk_ndarray 12
    (map (fun y =>
            map (fun x =>
                   if (3 <=? y) && (y <? 9) && (3 <=? x) && (x <? 9)
                   then entry 0 (rows Toy.frame7) (y - 3) (x - 3)
                   else 0)
                (Py.range 0 12))
         (Py.range 0 12)).

End OpenCv.


(* ================================================================== *)
(** ** Notions used in the statements *)

(** The rounded raw bounds of lines 30, 32, 34 and 36, before they are
    clamped: [np.around(p - size/2 - offset).astype(int)] and
    [np.around(p + size/2 + offset).astype(int)]. *)
Definition round_lo (p : Q) (size offset : Z) : Z :=
  astype_int (np_around
    (f64_sub (f64_sub (f64_of_Q p) (f64_truediv size 2)) (f64_of_Z offset))).

Definition round_hi (p : Q) (size offset : Z) : Z :=
  astype_int (np_around
    (f64_add (f64_add (f64_of_Q p) (f64_truediv size 2)) (f64_of_Z offset))).



(** Lines 42-58 of [__find_max_subpixel_roi]: what the step does with the
    correlation surface [res] once its maximum [max_loc] is located. *)
Definition refine_from (P : Primitives) (frame templ : image) (pos : position)
           (offset matsize : Z) (res : surface) (max_loc : Z * Z)
  : result position :=
  let '(xs, xe, ys, ye) :=
    roi_bounds (Py.len (rows frame)) (ncols frame)
               (Py.len (rows templ)) (ncols templ) pos offset in
  mat <- pull_matrix matsize res max_loc ;;
  f <- interp2d P (arange 0 matsize) (arange 0 matsize) mat ;;
  max_loc2 <- fmin P (fun d : Q * Q => (- f (fst d) (snd d))%Q)
                   ((inject_Z (matsize - 1) / 2)%Q,
                    (inject_Z (matsize - 1) / 2)%Q) ;;
  Ok ((inject_Z xs + (inject_Z (fst max_loc) - (2 - fst max_loc2)
                      + inject_Z (ncols templ) / 2))%Q,
      (inject_Z ys + (inject_Z (snd max_loc) - (2 - snd max_loc2)
                      + inject_Z (Py.len (rows templ)) / 2))%Q).

(** Row [i] of a surface as Python indexes it: a negative [i] is row
    [H + i], counted from the bottom. *)
Definition row_at (frame : surface) (i : Z) : list Q :=
  nth (Z.to_nat (if i <? 0 then i + Py.len (rows frame) else i))
      (rows frame) [].

(** The maximum at [loc] is closer than [(size - 1) / 2] to an edge of the
    surface. *)
Definition near_edge (size : Z) (frame : surface) (loc : Z * Z) : Prop :=
  let k := (size - 1) / 2 in
  fst loc < k \/ ncols frame <= fst loc + k \/
  snd loc < k \/ Py.len (rows frame) <= snd loc + k.

(** The positions a tracker appends from a given state on: the loops of
    [template_tracking] and [template_tracking_dual] without their
    accumulator. *)
Fixpoint track_run (step : image -> position -> result position)
         (frames : list image) (curr : position) : result (list position) :=
  match frames with
  | [] => Ok []
  | frame :: rest =>
      p <- step frame curr ;;
      t <- track_run step rest p ;;
      Ok (p :: t)
  end.

Fixpoint dual_run (stepl stepr : image -> position -> result position)
         (frames : list image) (pl pr : position)
  : result (list (position * position)) :=
  match frames with
  | [] => Ok []
  | frame :: rest =>
      pl <- stepl frame pl ;;
      pr <- stepr frame pr ;;
      t <- dual_run stepl stepr rest pl pr ;;
      Ok ((pl, pr) :: t)
  end.

(** What the scan for the maximum has established after visiting the
    locations [seen] of the score grid [all]: nothing when nothing was
    visited, otherwise a visited location holding the score [b] that no
    visited score exceeds. *)
Definition scan_inv (all : list (list Q)) (best : option (Q * (Z * Z)))
           (seen : Z -> Z -> Prop) : Prop :=
  match best with
  | None => forall x y, ~ seen x y
  | Some (b, (bx, by_)) =>
      seen bx by_ /\ b = entry 0%Q all by_ bx /\
      forall x y, seen x y -> (entry 0%Q all y x <= b)%Q
  end.

(* ================================================================== *)
(** ** Facts about Python sequences *)

Section PySequences.

Context {A : Type}.

Lemma len_nonneg (l : list A) : 0 <= Py.len l.
Proof. unfold Py.len. lia. Qed.

Lemma len_app (l1 l2 : list A) : Py.len (l1 ++ l2) = Py.len l1 + Py.len l2.
Proof. unfold Py.len. rewrite length_app. lia. Qed.

Lemma getitem_nonneg (l : list A) (i : Z) (d : A) :
  0 <= i < Py.len l ->
  Py.getitem l i = Ok (nth (Z.to_nat i) l d).
Proof.
  intros Hi. unfold Py.getitem. cbv zeta.
  destruct (i <? - Py.len l) eqn:E1; [apply Z.ltb_lt in E1; lia|].
  destruct (Py.len l <=? i) eqn:E2; [apply Z.leb_le in E2; lia|].
  destruct (i <? 0) eqn:E3; [apply Z.ltb_lt in E3; lia|].
  cbn [orb].
  destruct (nth_error l (Z.to_nat i)) eqn:E.
  - now rewrite (nth_error_nth _ _ d E).
  - apply nth_error_None in E. unfold Py.len in Hi. lia.
Qed.

Lemma getitem_negative (l : list A) (i : Z) (d : A) :
  - Py.len l <= i < 0 ->
  Py.getitem l i = Ok (nth (Z.to_nat (i + Py.len l)) l d).
Proof.
  intros Hi. unfold Py.getitem. cbv zeta.
  destruct (i <? - Py.len l) eqn:E1; [apply Z.ltb_lt in E1; lia|].
  destruct (Py.len l <=? i) eqn:E2; [apply Z.leb_le in E2; lia|].
  destruct (i <? 0) eqn:E3; [|apply Z.ltb_ge in E3; lia].
  cbn [orb].
  destruct (nth_error l (Z.to_nat (i + Py.len l))) eqn:E.
  - now rewrite (nth_error_nth _ _ d E).
  - apply nth_error_None in E. unfold Py.len in *. lia.
Qed.

Lemma getitem_out_of_range (l : list A) (i : Z) :
  i < - Py.len l \/ Py.len l <= i ->
  Py.getitem l i = Raise IndexError.
Proof.
  intros Hi. unfold Py.getitem. cbv zeta.
  destruct (i <? - Py.len l) eqn:E1; [reflexivity|].
  destruct (Py.len l <=? i) eqn:E2; [reflexivity|].
  apply Z.ltb_ge in E1. apply Z.leb_gt in E2. lia.
Qed.

(** A slice whose bounds lie inside the sequence. *)
Lemma slice_inside (l : list A) (a b : Z) :
  0 <= a -> a <= b -> b <= Py.len l ->
  Py.slice l a b = firstn (Z.to_nat (b - a)) (skipn (Z.to_nat a) l).
Proof.
  intros Ha Hab Hb. unfold Py.slice, Py.slice_bound. cbv zeta.
  destruct (a <? 0) eqn:E1; [apply Z.ltb_lt in E1; lia|].
  destruct (b <? 0) eqn:E2; [apply Z.ltb_lt in E2; lia|].
  now rewrite !Z.min_l by lia.
Qed.

Lemma slice_inside_len (l : list A) (a b : Z) :
  0 <= a -> a <= b -> b <= Py.len l ->
  Py.len (Py.slice l a b) = b - a.
Proof.
  intros Ha Hab Hb. rewrite slice_inside by assumption.
  unfold Py.len in *. rewrite length_firstn, length_skipn. lia.
Qed.

Lemma slice_inside_nth (l : list A) (a b c : Z) (d : A) :
  0 <= a -> a <= b -> b <= Py.len l -> 0 <= c < b - a ->
  nth (Z.to_nat c) (Py.slice l a b) d = nth (Z.to_nat (a + c)) l d.
Proof.
  intros Ha Hab Hb Hc. rewrite slice_inside by assumption.
  rewrite nth_firstn.
  destruct (Nat.ltb_spec (Z.to_nat c) (Z.to_nat (b - a))); [|lia].
  rewrite nth_skipn. f_equal. lia.
Qed.

End PySequences.

Lemma range_length (a b : Z) : length (Py.range a b) = Z.to_nat (b - a).
Proof. unfold Py.range. now rewrite length_map, length_seq. Qed.

Lemma range_nth (a b : Z) (n : nat) (d : Z) :
  (n < Z.to_nat (b - a))%nat -> nth n (Py.range a b) d = a + Z.of_nat n.
Proof.
  intros Hn. unfold Py.range.
  rewrite (nth_indep _ d (a + Z.of_nat 0)) by now rewrite length_map, length_seq.
  rewrite (map_nth (fun n => a + Z.of_nat n)), seq_nth by assumption.
  reflexivity.
Qed.

Lemma range_In (a b i : Z) : In i (Py.range a b) <-> a <= i < b.
Proof.
  unfold Py.range. rewrite in_map_iff. split.
  - intros (n & <- & Hn). apply in_seq in Hn. lia.
  - intros Hi. exists (Z.to_nat (i - a)). split; [lia|]. apply in_seq. lia.
Qed.

(* ================================================================== *)
(** ** The peak window extractor *)

Lemma row_at_getitem (frame : surface) (i : Z) :
  - Py.len (rows frame) <= i < Py.len (rows frame) ->
  Py.getitem (rows frame) i = Ok (row_at frame i).
Proof.
  intros Hi. unfold row_at. destruct (i <? 0) eqn:E.
  - apply Z.ltb_lt in E. apply getitem_negative. lia.
  - apply Z.ltb_ge in E. apply getitem_nonneg. lia.
Qed.

(** While every requested index is a legal row index, the loop appends one
    slice per index. *)
Lemma pull_rows_ok (frame : surface) (lo hi : Z) (idx : list Z) :
  forall mat,
    Forall (fun i => - Py.len (rows frame) <= i < Py.len (rows frame)) idx ->
    pull_rows frame lo hi idx mat
    = Ok (mat ++ map (fun i => Py.slice (row_at frame i) lo hi) idx).
Proof.
  induction idx as [|i idx IH]; intros mat Hall; cbn [pull_rows map].
  - now rewrite app_nil_r.
  - inversion Hall as [|? ? Hi Hrest]; subst.
    rewrite row_at_getitem by assumption. cbn [bind].
    rewrite IH by assumption. now rewrite <- app_assoc.
Qed.

(** An index that is not a legal row index stops the loop with
    [IndexError]. *)
Lemma pull_rows_raise (frame : surface) (lo hi : Z) (idx : list Z) :
  forall mat,
    Exists (fun i => i < - Py.len (rows frame) \/ Py.len (rows frame) <= i) idx ->
    pull_rows frame lo hi idx mat = Raise IndexError.
Proof.
  induction idx as [|i idx IH]; intros mat Hex; cbn [pull_rows].
  - inversion Hex.
  - destruct (Py.getitem (rows frame) i) as [row|e] eqn:E.
    + cbn [bind]. apply IH. inversion Hex as [? ? Hi|? ? Hrest]; subst.
      * rewrite getitem_out_of_range in E by assumption. discriminate.
      * assumption.
    + cbn [bind]. unfold Py.getitem in E. cbv zeta in E.
      destruct ((i <? - Py.len (rows frame)) || (Py.len (rows frame) <=? i)).
      * congruence.
      * destruct (nth_error _ _); congruence.
Qed.

Lemma odd_half (N : Z) :
  0 < N -> Z.odd N = true ->
  Z.quot (N - 1) 2 = (N - 1) / 2 /\ 2 * ((N - 1) / 2) + 1 = N /\ 0 <= (N - 1) / 2.
Proof.
  intros Hpos Hodd.
  rewrite Z.quot_div_nonneg by lia.
  rewrite Zodd_mod in Hodd. apply Z.eqb_eq in Hodd.
  Z.div_mod_to_equations. lia.
Qed.

(** What [__pull_matrix] returns when no row index is out of range. *)
Lemma pull_matrix_rows (N mx my : Z) (surf : surface) :
  let k := Z.quot (N - 1) 2 in
  - Py.len (rows surf) <= my - k -> my + k < Py.len (rows surf) ->
  pull_matrix N surf (mx, my)
  = Ok (map (fun i => Py.slice (row_at surf i) (mx - k) (mx + k + 1))
            (Py.range (my - k) (my + k + 1))).
Proof.
  intros k Hlo Hhi. unfold pull_matrix. cbn [fst snd]. fold k.
  rewrite pull_rows_ok; [reflexivity|].
  apply Forall_forall. intros i Hi. apply range_In in Hi. lia.
Qed.

Lemma row_at_len (surf : surface) (i : Z) :
  wf_ndarray surf ->
  - Py.len (rows surf) <= i < Py.len (rows surf) ->
  Py.len (row_at surf i) = ncols surf.
Proof.
  intros Hwf Hi. unfold wf_ndarray in Hwf. rewrite Forall_forall in Hwf.
  apply Hwf. unfold row_at. apply nth_In. unfold Py.len in *.
  destruct (i <? 0) eqn:E; [apply Z.ltb_lt in E | apply Z.ltb_ge in E]; lia.
Qed.

(** The window of half-width [k] around [(mx, my)], when its columns fit and
    its row indices are legal (possibly negative): size and entries. *)
Lemma window_shape (surf : surface) (mx my k : Z) :
  wf_ndarray surf ->
  0 <= k -> k <= mx -> mx + k < ncols surf ->
  - Py.len (rows surf) <= my - k -> my + k < Py.len (rows surf) ->
  let mat := map (fun i => Py.slice (row_at surf i) (mx - k) (mx + k + 1))
                 (Py.range (my - k) (my + k + 1)) in
  Py.len mat = 2 * k + 1 /\
  (forall row, In row mat -> Py.len row = 2 * k + 1) /\
  (forall r c, 0 <= r < 2 * k + 1 -> 0 <= c < 2 * k + 1 ->
     entry 0%Q mat r c
     = nth (Z.to_nat (mx - k + c)) (row_at surf (my - k + r)) 0%Q).
Proof.
  intros Hwf Hk Hmx Hmx' Hlo Hhi mat. subst mat. split; [|split].
  - unfold Py.len. rewrite length_map, range_length. lia.
  - intros row Hin. apply in_map_iff in Hin. destruct Hin as (i & <- & Hi).
    apply range_In in Hi.
    rewrite slice_inside_len; rewrite ?row_at_len; try assumption; lia.
  - intros r c Hr Hc. unfold entry.
    set (F := fun i => Py.slice (row_at surf i) (mx - k) (mx + k + 1)).
    rewrite (nth_indep _ [] (F 0)) by (rewrite length_map, range_length; lia).
    rewrite map_nth, range_nth by lia. subst F. cbv beta.
    rewrite Z2Nat.id by lia.
    apply slice_inside_nth; rewrite ?row_at_len; try assumption; lia.
Qed.

(** C6. When the square neighbourhood of odd size [N] around the discrete
    maximum [(mx, my)] fits inside the correlation surface, [__pull_matrix]
    returns the [N] x [N] window centred on the maximum: its entry at row
    [r], column [c] is the surface value at row [my - (N-1)/2 + r], column
    [mx - (N-1)/2 + c]. *)
Theorem pull_matrix_centered (N mx my : Z) (surf : surface) :
  wf_ndarray surf -> 0 < N -> Z.odd N = true ->
  (N - 1) / 2 <= mx -> mx + (N - 1) / 2 < ncols surf ->
  (N - 1) / 2 <= my -> my + (N - 1) / 2 < Py.len (rows surf) ->
  exists mat,
    pull_matrix N surf (mx, my) = Ok mat /\
    Py.len mat = N /\
    (forall row, In row mat -> Py.len row = N) /\
    forall r c, 0 <= r < N -> 0 <= c < N ->
      entry 0%Q mat r c
      = entry 0%Q (rows surf) (my - (N - 1) / 2 + r) (mx - (N - 1) / 2 + c).
Proof.
  intros Hwf Hpos Hodd Hx1 Hx2 Hy1 Hy2.
  destruct (odd_half N Hpos Hodd) as (Hq & HN & Hk).
  pose proof (len_nonneg (rows surf)) as HH.
  eexists. split.
  { rewrite pull_matrix_rows; rewrite ?Hq; [reflexivity | lia | lia]. }
  destruct (window_shape surf mx my ((N - 1) / 2) Hwf Hk Hx1 Hx2
              ltac:(lia) Hy2) as (Hlen & Hrows & Hent).
  rewrite HN in Hlen, Hrows, Hent.
  split; [exact Hlen | split; [exact Hrows|]].
  intros r c Hr Hc. rewrite Hent by assumption.
  unfold entry, row_at.
  destruct (my - (N - 1) / 2 + r <? 0) eqn:E; [apply Z.ltb_lt in E; lia|].
  reflexivity.
Qed.

Lemma pull_matrix_centered_witness :
  exists mat,
    pull_matrix 3 Toy.surf5 (2, 2) = Ok mat /\
    Py.len mat = 3 /\
    (forall row, In row mat -> Py.len row = 3) /\
    forall r c, 0 <= r < 3 -> 0 <= c < 3 ->
      entry 0%Q mat r c
      = entry 0%Q (rows Toy.surf5) (2 - (3 - 1) / 2 + r) (2 - (3 - 1) / 2 + c).
Proof.
  apply (pull_matrix_centered 3 2 2 Toy.surf5).
  - repeat constructor.
  - lia.
  - reflexivity.
  - vm_compute. discriminate.
  - vm_compute. reflexivity.
  - vm_compute. discriminate.
  - vm_compute. reflexivity.
Defined.

(** C10. When the maximum's row [my] is closer than [k = (N-1)/2] to the top
    of the surface while [my + k < H], and its column is at least [k] from
    both vertical edges, [__pull_matrix] raises nothing: it returns an
    [N] x [N] window whose row [r] is read from surface row [my - k + r] when
    that index is non-negative and from row [H + (my - k + r)], counted from
    the bottom of the surface, when it is negative. *)
Theorem pull_matrix_wraps_rows (N mx my : Z) (surf : surface) :
  wf_ndarray surf -> 0 < N -> Z.odd N = true ->
  0 <= my -> my < (N - 1) / 2 -> my + (N - 1) / 2 < Py.len (rows surf) ->
  (N - 1) / 2 <= mx -> mx + (N - 1) / 2 < ncols surf ->
  exists mat,
    pull_matrix N surf (mx, my) = Ok mat /\
    Py.len mat = N /\
    (forall row, In row mat -> Py.len row = N) /\
    forall r c, 0 <= r < N -> 0 <= c < N ->
      let i := my - (N - 1) / 2 + r in
      entry 0%Q mat r c
      = entry 0%Q (rows surf)
              (if i <? 0 then Py.len (rows surf) + i else i)
              (mx - (N - 1) / 2 + c).
Proof.
  intros Hwf Hpos Hodd Hy0 Hy1 Hy2 Hx1 Hx2.
  destruct (odd_half N Hpos Hodd) as (Hq & HN & Hk).
  eexists. split.
  { rewrite pull_matrix_rows; rewrite ?Hq; [reflexivity | lia | lia]. }
  destruct (window_shape surf mx my ((N - 1) / 2) Hwf Hk Hx1 Hx2
              ltac:(lia) Hy2) as (Hlen & Hrows & Hent).
  rewrite HN in Hlen, Hrows, Hent.
  split; [exact Hlen | split; [exact Hrows|]].
  intros r c Hr Hc i. rewrite Hent by assumption.
  unfold entry, row_at. fold i.
  destruct (i <? 0); [|reflexivity].
  now rewrite (Z.add_comm i (Py.len (rows surf))).
Qed.

Lemma pull_matrix_wraps_rows_witness :
  exists mat,
    pull_matrix 3 Toy.surf5 (2, 0) = Ok mat /\
    Py.len mat = 3 /\
    (forall row, In row mat -> Py.len row = 3) /\
    forall r c, 0 <= r < 3 -> 0 <= c < 3 ->
      let i := 0 - (3 - 1) / 2 + r in
      entry 0%Q mat r c
      = entry 0%Q (rows Toy.surf5)
              (if i <? 0 then Py.len (rows Toy.surf5) + i else i)
              (2 - (3 - 1) / 2 + c).
Proof.
  apply (pull_matrix_wraps_rows 3 2 0 Toy.surf5).
  - repeat constructor.
  - lia.
  - reflexivity.
  - lia.
  - vm_compute. reflexivity.
  - vm_compute. reflexivity.
  - vm_compute. discriminate.
  - vm_compute. reflexivity.
Defined.

(** C7, on a concrete surface: the maximum of the 5 x 5 surface [Toy.surf5]
    at column 2, row 0 is closer to the top edge than [(3-1)/2 = 1], and
    [__pull_matrix] returns a window (bottom row 4 followed by rows 0 and 1)
    instead of raising. *)
Lemma pull_matrix_near_edge_returns :
  near_edge 3 Toy.surf5 (2, 0) /\
  pull_matrix 3 Toy.surf5 (2, 0)
  = Ok [ [inject_Z 41; inject_Z 42; inject_Z 43];
         [inject_Z 1; inject_Z 2; inject_Z 3];
         [inject_Z 11; inject_Z 12; inject_Z 13] ].
Proof.
  split.
  - unfold near_edge. cbn. lia.
  - vm_compute. reflexivity.
Qed.

(** C7, as the code behaves. For a surface of height [H], an odd window size
    [N] with [k = (N-1)/2] and a maximum in row [0 <= my < H] (any column),
    [__pull_matrix] raises [IndexError] exactly when the window reaches past
    the bottom edge ([H <= my + k]); otherwise - also when the maximum is
    closer than [k] to the top, left or right edge - it returns a window of
    [N] rows. *)
Theorem pull_matrix_raises_iff_bottom (N mx my : Z) (surf : surface) :
  0 < N -> Z.odd N = true ->
  0 <= my < Py.len (rows surf) ->
  (pull_matrix N surf (mx, my) = Raise IndexError
   <-> Py.len (rows surf) <= my + (N - 1) / 2) /\
  (my + (N - 1) / 2 < Py.len (rows surf) ->
   exists mat, pull_matrix N surf (mx, my) = Ok mat /\ Py.len mat = N).
Proof.
  intros Hpos Hodd Hmy.
  destruct (odd_half N Hpos Hodd) as (Hq & HN & Hk).
  assert (Hok : my + (N - 1) / 2 < Py.len (rows surf) ->
                exists mat, pull_matrix N surf (mx, my) = Ok mat /\ Py.len mat = N).
  { intros Hfit. eexists. split.
    - rewrite pull_matrix_rows; rewrite ?Hq; [reflexivity | lia | lia].
    - unfold Py.len. rewrite length_map, range_length. lia. }
  split; [split|exact Hok].
  - intros Hraise.
    destruct (Z_lt_le_dec (my + (N - 1) / 2) (Py.len (rows surf))) as [Hfit|Hge];
      [|exact Hge].
    destruct (Hok Hfit) as (mat & Hmat & _). congruence.
  - intros Hge. unfold pull_matrix. cbn [fst snd]. rewrite Hq.
    apply pull_rows_raise. apply Exists_exists.
    exists (Py.len (rows surf)). split; [apply range_In; lia | lia].
Qed.

Lemma pull_matrix_raises_iff_bottom_witness :
  (pull_matrix 3 Toy.surf5 (2, 4) = Raise IndexError
   <-> Py.len (rows Toy.surf5) <= 4 + (3 - 1) / 2) /\
  (4 + (3 - 1) / 2 < Py.len (rows Toy.surf5) ->
   exists mat, pull_matrix 3 Toy.surf5 (2, 4) = Ok mat /\ Py.len mat = 3).
Proof.
  apply (pull_matrix_raises_iff_bottom 3 2 4 Toy.surf5).
  - lia.
  - reflexivity.
  - vm_compute. split; [discriminate | reflexivity].
Defined.

(* ================================================================== *)
(** ** The region of interest *)

Lemma around_floor_or_succ (q : Q) :
  around q = Qfloor q \/
  (around q = Qfloor q + 1 /\ (inject_Z (Qfloor q) < q)%Q).
Proof.
  unfold around. cbv zeta.
  assert (Hhalf : forall c, c <> Lt ->
            Qcompare (q - inject_Z (Qfloor q)) (1 # 2) = c ->
            (inject_Z (Qfloor q) < q)%Q).
  { intros c Hc E.
    assert (Hle : (1 # 2 <= q - inject_Z (Qfloor q))%Q).
    { apply Qnot_lt_le. intros Hlt. apply Qlt_alt in Hlt.
      change (Qcompare (q - inject_Z (Qfloor q)) (1 # 2) = Lt) in Hlt.
      rewrite Hlt in E. now subst c. }
    apply (Qplus_lt_l _ _ (- inject_Z (Qfloor q))).
    rewrite Qplus_opp_r.
    apply Qlt_le_trans with (1 # 2)%Q; [reflexivity | exact Hle]. }
  destruct (Qcompare (q - inject_Z (Qfloor q)) (1 # 2)) eqn:E.
  - destruct (Z.even (Qfloor q)); [now left | right].
    split; [reflexivity | now apply (Hhalf Eq)].
  - now left.
  - right. split; [reflexivity | now apply (Hhalf Gt)].
Qed.

Lemma half_nonneg (w : Z) : 0 <= w -> (0 <= inject_Z w / 2)%Q.
Proof.
  intros H. apply Qle_shift_div_l; [reflexivity|]. rewrite Qmult_0_l.
  change 0%Q with (inject_Z 0). now rewrite <- Zle_Qle.
Qed.

(** Rounding never crosses an integer. *)
Lemma around_le (q : Q) (n : Z) : (q <= inject_Z n)%Q -> around q <= n.
Proof.
  intros Hq.
  assert (Hfl : Qfloor q <= n).
  { rewrite <- (Qfloor_Z n). now apply Qfloor_resp_le. }
  destruct (around_floor_or_succ q) as [->|[-> Hlt]]; [exact Hfl|].
  assert (Qfloor q < n); [|lia].
  rewrite Zlt_Qlt. eapply Qlt_le_trans; eassumption.
Qed.

Lemma around_ge (q : Q) (n : Z) : (inject_Z n <= q)%Q -> n <= around q.
Proof.
  intros Hq.
  assert (Hfl : n <= Qfloor q).
  { rewrite <- (Qfloor_Z n). now apply Qfloor_resp_le. }
  destruct (around_floor_or_succ q) as [->|[-> _]]; lia.
Qed.

Lemma around_comp (q q' : Q) : (q == q')%Q -> around q = around q'.
Proof.
  intros Heq. unfold around. cbv zeta.
  rewrite (Qfloor_comp _ _ Heq).
  rewrite (Qcompare_comp (q - inject_Z (Qfloor q'))%Q
                         (q' - inject_Z (Qfloor q'))%Q
                         ltac:(now rewrite Heq)
                         (1 # 2)%Q (1 # 2)%Q ltac:(reflexivity)).
  reflexivity.
Qed.

Lemma Qfloor_unique (q : Q) (a : Z) :
  (inject_Z a <= q)%Q -> (q < inject_Z (a + 1))%Q -> Qfloor q = a.
Proof.
  intros Hlo Hhi.
  assert (a <= Qfloor q).
  { rewrite <- (Qfloor_Z a). now apply Qfloor_resp_le. }
  assert (Qfloor q < a + 1); [|lia].
  rewrite Zlt_Qlt. eapply Qle_lt_trans; [apply Qfloor_le | exact Hhi].
Qed.

(** An integer is its own rounding. *)
Lemma around_Z (n : Z) : around (inject_Z n) = n.
Proof.
  unfold around. cbv zeta. rewrite Qfloor_Z.
  assert (E : Qcompare (inject_Z n - inject_Z n)%Q (1 # 2)%Q = Lt).
  { apply Qlt_alt. setoid_replace (inject_Z n - inject_Z n)%Q with 0%Q by ring.
    reflexivity. }
  now rewrite E.
Qed.

(** A half-integer rounds to its even neighbour. *)
Lemma around_half (a : Z) :
  around (inject_Z a + (1 # 2)) = if Z.even a then a else a + 1.
Proof.
  assert (Hfl : Qfloor (inject_Z a + (1 # 2)) = a).
  { apply Qfloor_unique.
    - rewrite <- (Qplus_0_r (inject_Z a)) at 1.
      apply Qplus_le_r. discriminate.
    - rewrite inject_Z_plus. apply Qplus_lt_r. reflexivity. }
  unfold around. cbv zeta. rewrite Hfl.
  assert (E : Qcompare (inject_Z a + (1 # 2) - inject_Z a)%Q (1 # 2)%Q = Eq).
  { apply Qeq_alt. ring. }
  now rewrite E.
Qed.

Lemma even_shift (a c : Z) : Z.even (a - (2 * c + 1)) = negb (Z.even a).
Proof.
  replace (a - (2 * c + 1)) with (a + 1 + 2 * (- c - 1)) by lia.
  rewrite Z.even_add_mul_2, Z.even_add.
  destruct (Z.even a); reflexivity.
Qed.

(** *** Binary64 rounding between half-integers *)
Lemma pow2_pos (e : Z) : (0 < pow2 e)%Q.
Proof. apply Qpower_0_lt. reflexivity. Qed.

Lemma pow2_add (a b : Z) : (pow2 (a + b) == pow2 a * pow2 b)%Q.
Proof. apply Qpower_plus. discriminate. Qed.

Lemma pow2_cancel (e : Z) : (pow2 e * pow2 (- e) == 1)%Q.
Proof. rewrite <- pow2_add, Z.add_opp_diag_r. reflexivity. Qed.

Lemma pow2_Z (e : Z) : 0 <= e -> (pow2 e == inject_Z (2 ^ e))%Q.
Proof. intros He. unfold pow2. now rewrite Zpower_Qpower. Qed.

Lemma pow2_le (a b : Z) : a <= b -> (pow2 a <= pow2 b)%Q.
Proof. intros H. apply Qpower_le_compat_l; [exact H | discriminate]. Qed.

Lemma pow2_lt_inv (a b : Z) : (pow2 a < pow2 b)%Q -> a < b.
Proof. intros H. apply (Qpower_lt_compat_l_inv 2); [exact H | reflexivity]. Qed.

Lemma ilog2_lower (q : Q) : ~ (q == 0)%Q -> (pow2 (ilog2 q) <= Qabs q)%Q.
Proof.
  intros Hq. unfold ilog2. cbv zeta.
  set (l := Z.log2 (Z.abs (Qnum q)) - Z.log2 (Z.pos (Qden q))).
  destruct (Qle_bool (pow2 l) (Qabs q)) eqn:E.
  - now apply Qle_bool_iff.
  - destruct q as [n d]. unfold Qabs. cbn [Qnum Qden] in *.
    assert (Hn : 0 < Z.abs n).
    { assert (n <> 0); [|lia]. intros ->. apply Hq. reflexivity. }
    pose proof (Z.log2_spec (Z.abs n) Hn) as [Hn1 _].
    pose proof (Z.log2_spec (Z.pos d) ltac:(lia)) as [_ Hd2].
    pose proof (Z.log2_nonneg (Z.abs n)) as Ha.
    pose proof (Z.log2_nonneg (Z.pos d)) as Hb.
    rewrite (Qmake_Qdiv (Z.abs n) d).
    apply Qle_shift_div_l; [reflexivity|].
    apply Qle_trans with (pow2 (l - 1) * inject_Z (2 ^ (Z.succ (Z.log2 (Z.pos d)))))%Q.
    + apply Qmult_le_l; [apply pow2_pos|]. rewrite <- Zle_Qle. lia.
    + rewrite <- pow2_Z by lia. rewrite <- pow2_add.
      replace (l - 1 + Z.succ (Z.log2 (Z.pos d))) with (Z.log2 (Z.abs n))
        by (subst l; lia).
      rewrite pow2_Z by lia. rewrite <- Zle_Qle. exact Hn1.
Qed.

Lemma half_scaled (n e : Z) :
  e <= -1 -> (inject_Z n / 2 * pow2 (- e) == inject_Z (n * 2 ^ (- e - 1)))%Q.
Proof.
  intros He.
  replace (- e) with (1 + (- e - 1)) at 1 by lia.
  rewrite pow2_add, (pow2_Z (- e - 1)) by lia.
  rewrite inject_Z_mult. change (pow2 1) with 2%Q. field.
Qed.

Lemma big_exp (q : Q) :
  ~ (q == 0)%Q -> 0 <= ulp_exp q -> (pow2 (52 + ulp_exp q) <= Qabs q)%Q.
Proof.
  intros Hq He. unfold ulp_exp in *.
  replace (52 + Z.max (ilog2 q - 52) (-1074)) with (ilog2 q) by lia.
  now apply ilog2_lower.
Qed.

Lemma half_below_pow2_52 (n : Z) :
  Z.abs n < 2 ^ 53 ->
  (- pow2 52 < inject_Z n / 2)%Q /\ (inject_Z n / 2 < pow2 52)%Q.
Proof.
  intros Hn. rewrite (pow2_Z 52) by lia.
  assert (H1 : (inject_Z n < inject_Z (2 ^ 53))%Q) by (rewrite <- Zlt_Qlt; lia).
  assert (H2 : (inject_Z (- 2 ^ 53) < inject_Z n)%Q) by (rewrite <- Zlt_Qlt; lia).
  assert (E1 : (inject_Z (2 ^ 53) == 2 * inject_Z (2 ^ 52))%Q) by reflexivity.
  assert (E2 : (inject_Z (- 2 ^ 53) == - (2 * inject_Z (2 ^ 52)))%Q) by reflexivity.
  rewrite E1 in H1. rewrite E2 in H2.
  generalize dependent (inject_Z (2 ^ 52)). generalize dependent (inject_Z n).
  intros a b H1 H2. split.
  - apply Qlt_shift_div_l; [reflexivity | lra].
  - apply Qlt_shift_div_r; [reflexivity | lra].
Qed.

Lemma pow2_scale_back (x : Q) (e : Z) : (x * pow2 (- e) * pow2 e == x)%Q.
Proof.
  setoid_replace (x * pow2 (- e) * pow2 e)%Q with (x * (pow2 e * pow2 (- e)))%Q
    by ring.
  rewrite pow2_cancel. ring.
Qed.

Lemma neg_pow2_52_scaled (e : Z) :
  (inject_Z (- 2 ^ 52) == - pow2 (52 + e) * pow2 (- e))%Q.
Proof.
  rewrite pow2_add, inject_Z_opp, <- (pow2_Z 52) by lia.
  setoid_replace (- (pow2 52 * pow2 e) * pow2 (- e))%Q
    with (- pow2 52 * (pow2 e * pow2 (- e)))%Q by ring.
  rewrite pow2_cancel. ring.
Qed.

Lemma fl_le_half (q : Q) (n : Z) :
  (q <= inject_Z n / 2)%Q -> Z.abs n < 2 ^ 53 -> (fl q <= inject_Z n / 2)%Q.
Proof.
  intros Hle Hn. unfold fl.
  destruct (Qeq_bool q 0) eqn:E.
  - apply Qeq_bool_iff in E. now rewrite <- E.
  - apply Qeq_bool_neq in E. set (e := ulp_exp q).
    pose proof (pow2_pos (- e)) as Hp. pose proof (pow2_pos e) as Hp'.
    destruct (Z_le_gt_dec e (-1)) as [Hsmall|Hbig].
    + assert (Hs : around (q * pow2 (- e)) <= n * 2 ^ (- e - 1)).
      { apply around_le. rewrite <- half_scaled by assumption.
        apply Qmult_le_compat_r; [exact Hle | now apply Qlt_le_weak]. }
      apply Qle_trans with (inject_Z (n * 2 ^ (- e - 1)) * pow2 e)%Q.
      * apply Qmult_le_compat_r; [now rewrite <- Zle_Qle | now apply Qlt_le_weak].
      * rewrite <- half_scaled by assumption.
        rewrite pow2_scale_back. apply Qle_refl.
    + pose proof (big_exp q E ltac:(subst e; lia)) as Hq. fold e in Hq.
      destruct (half_below_pow2_52 n Hn) as (Hlo & Hhi).
      assert (H52 : (pow2 52 <= pow2 (52 + e))%Q) by (apply pow2_le; lia).
      destruct (Qlt_le_dec q 0) as [Hneg|Hpos].
      * rewrite Qabs_neg in Hq by now apply Qlt_le_weak.
        assert (Hs : around (q * pow2 (- e)) <= - 2 ^ 52).
        { apply around_le. rewrite (neg_pow2_52_scaled e).
          apply Qmult_le_compat_r; [lra | now apply Qlt_le_weak]. }
        apply Qle_trans with (inject_Z (- 2 ^ 52) * pow2 e)%Q.
        -- apply Qmult_le_compat_r; [now rewrite <- Zle_Qle | now apply Qlt_le_weak].
        -- rewrite inject_Z_opp, <- (pow2_Z 52) by lia.
           assert (H1 : (1 <= pow2 e)%Q).
           { change 1%Q with (pow2 0). apply pow2_le. lia. }
           pose proof (pow2_pos 52) as H0.
           apply Qle_trans with (- pow2 52)%Q; [|lra].
           setoid_replace (- pow2 52 * pow2 e)%Q with (- (pow2 52 * pow2 e))%Q by ring.
           apply Qopp_le_compat.
           rewrite <- (Qmult_1_r (pow2 52)) at 1.
           apply Qmult_le_l; assumption.
      * rewrite Qabs_pos in Hq by assumption. lra.
Qed.

Lemma pos_pow2_52_scaled (e : Z) :
  (inject_Z (2 ^ 52) == pow2 (52 + e) * pow2 (- e))%Q.
Proof.
  rewrite pow2_add, <- (pow2_Z 52) by lia.
  setoid_replace (pow2 52 * pow2 e * pow2 (- e))%Q
    with (pow2 52 * (pow2 e * pow2 (- e)))%Q by ring.
  rewrite pow2_cancel. ring.
Qed.

Lemma fl_ge_half (q : Q) (n : Z) :
  (inject_Z n / 2 <= q)%Q -> Z.abs n < 2 ^ 53 -> (inject_Z n / 2 <= fl q)%Q.
Proof.
  intros Hle Hn. unfold fl.
  destruct (Qeq_bool q 0) eqn:E.
  - apply Qeq_bool_iff in E. now rewrite <- E.
  - apply Qeq_bool_neq in E. set (e := ulp_exp q).
    pose proof (pow2_pos (- e)) as Hp. pose proof (pow2_pos e) as Hp'.
    destruct (Z_le_gt_dec e (-1)) as [Hsmall|Hbig].
    + assert (Hs : n * 2 ^ (- e - 1) <= around (q * pow2 (- e))).
      { apply around_ge. rewrite <- half_scaled by assumption.
        apply Qmult_le_compat_r; [exact Hle | now apply Qlt_le_weak]. }
      apply Qle_trans with (inject_Z (n * 2 ^ (- e - 1)) * pow2 e)%Q.
      * rewrite <- half_scaled by assumption.
        rewrite pow2_scale_back. apply Qle_refl.
      * apply Qmult_le_compat_r; [now rewrite <- Zle_Qle | now apply Qlt_le_weak].
    + pose proof (big_exp q E ltac:(subst e; lia)) as Hq. fold e in Hq.
      destruct (half_below_pow2_52 n Hn) as (Hlo & Hhi).
      assert (H52 : (pow2 52 <= pow2 (52 + e))%Q) by (apply pow2_le; lia).
      destruct (Qlt_le_dec q 0) as [Hneg|Hpos].
      * rewrite Qabs_neg in Hq by now apply Qlt_le_weak. lra.
      * rewrite Qabs_pos in Hq by assumption.
        assert (Hs : 2 ^ 52 <= around (q * pow2 (- e))).
        { apply around_ge. rewrite (pos_pow2_52_scaled e).
          apply Qmult_le_compat_r; [lra | now apply Qlt_le_weak]. }
        apply Qle_trans with (inject_Z (2 ^ 52) * pow2 e)%Q.
        -- rewrite <- (pow2_Z 52) by lia.
           assert (H1 : (1 <= pow2 e)%Q).
           { change 1%Q with (pow2 0). apply pow2_le. lia. }
           pose proof (pow2_pos 52) as H0.
           apply Qle_trans with (pow2 52); [lra|].
           rewrite <- (Qmult_1_r (pow2 52)) at 1.
           apply Qmult_le_l; assumption.
        -- apply Qmult_le_compat_r; [now rewrite <- Zle_Qle | now apply Qlt_le_weak].
Qed.

(** A value between two half-integers of moderate size is rounded to a
    finite double between them. *)
Lemma f64_round_between (q : Q) (a b : Z) :
  (inject_Z a / 2 <= q)%Q -> (q <= inject_Z b / 2)%Q ->
  Z.abs a < 2 ^ 53 -> Z.abs b < 2 ^ 53 ->
  exists r, f64_round q = Finite r /\
            (inject_Z a / 2 <= r)%Q /\ (r <= inject_Z b / 2)%Q.
Proof.
  intros Ha Hb Hna Hnb.
  pose proof (fl_ge_half q a Ha Hna) as Hlo.
  pose proof (fl_le_half q b Hb Hnb) as Hhi.
  destruct (half_below_pow2_52 a Hna) as (Ha1 & _).
  destruct (half_below_pow2_52 b Hnb) as (_ & Hb2).
  unfold f64_round. cbv zeta.
  destruct (Qle_bool (pow2 1024) (Qabs (fl q))) eqn:E.
  - exfalso. apply Qle_bool_iff in E.
    assert (Habs : (Qabs (fl q) < pow2 52)%Q) by (apply Qabs_Qlt_condition; lra).
    assert (H : (pow2 52 <= pow2 1024)%Q) by (apply pow2_le; lia).
    lra.
  - exists (fl q). repeat split; assumption.
Qed.

Lemma astype_int_Z (z : Z) :
  - 2 ^ 63 <= z < 2 ^ 63 -> astype_int (Finite (inject_Z z)) = z.
Proof.
  intros Hz. unfold astype_int, Qtrunc.
  assert (E : (if Qle_bool 0 (inject_Z z) then Qfloor (inject_Z z)
               else Qceiling (inject_Z z)) = z).
  { destruct (Qle_bool 0 (inject_Z z)); [apply Qfloor_Z | apply Qceiling_Z]. }
  rewrite E. cbv zeta.
  destruct (Z.leb_spec (- 2 ^ 63) z); [|lia].
  destruct (Z.ltb_spec z (2 ^ 63)); [reflexivity | lia].
Qed.

Lemma half_sub (x y : Z) :
  (inject_Z (x - y) / 2 == inject_Z x / 2 - inject_Z y / 2)%Q.
Proof. unfold Z.sub. rewrite inject_Z_plus, inject_Z_opp. field. Qed.

Lemma half_add (x y : Z) :
  (inject_Z (x + y) / 2 == inject_Z x / 2 + inject_Z y / 2)%Q.
Proof. rewrite inject_Z_plus. field. Qed.

Lemma half_double (m : Z) : (inject_Z (2 * m) / 2 == inject_Z m)%Q.
Proof. rewrite inject_Z_mult. field. Qed.

(** An int of moderate size and the half of one are doubles. *)
Lemma f64_of_Z_exact (m : Z) :
  Z.abs m < 2 ^ 52 ->
  exists r, f64_of_Z m = Finite r /\ (r == inject_Z m)%Q.
Proof.
  intros Hm. unfold f64_of_Z.
  destruct (f64_round_between (inject_Z m) (2 * m) (2 * m)) as (r & Hr & H1 & H2);
    try (rewrite half_double; apply Qle_refl); try lia.
  exists r. split; [exact Hr|]. rewrite half_double in H1, H2.
  now apply Qle_antisym.
Qed.

Lemma f64_truediv_2_exact (w : Z) :
  Z.abs w < 2 ^ 53 ->
  exists r, f64_truediv w 2 = Finite r /\ (r == inject_Z w / 2)%Q.
Proof.
  intros Hw. unfold f64_truediv. change (inject_Z 2) with 2%Q.
  destruct (f64_round_between (inject_Z w / 2) w w) as (r & Hr & H1 & H2);
    try apply Qle_refl; try assumption.
  exists r. split; [exact Hr | now apply Qle_antisym].
Qed.

Lemma around_index (v : Q) (lo hi : Z) :
  (inject_Z lo / 2 <= v)%Q -> (v <= inject_Z hi / 2)%Q ->
  Z.abs lo < 2 ^ 53 -> Z.abs hi < 2 ^ 53 ->
  astype_int (np_around (Finite v)) = around v.
Proof.
  intros H1 H2 Hlo Hhi. cbn [np_around]. apply astype_int_Z.
  destruct (half_below_pow2_52 lo Hlo) as (Ha & _).
  destruct (half_below_pow2_52 hi Hhi) as (_ & Hb).
  rewrite (pow2_Z 52) in Ha, Hb by lia.
  assert (around v <= 2 ^ 52) by (apply around_le; lra).
  assert (- 2 ^ 52 <= around v).
  { apply around_ge. rewrite inject_Z_opp. lra. }
  lia.
Qed.

(** The rounded raw start bound, for a position between two half-integers
    and quantities of moderate size: every intermediate double stays between
    the corresponding half-integers. *)
Lemma round_lo_between (p : Q) (a b w m : Z) :
  (inject_Z a / 2 <= p)%Q -> (p <= inject_Z b / 2)%Q ->
  Z.abs a < 2 ^ 51 -> Z.abs b < 2 ^ 51 -> Z.abs w < 2 ^ 50 -> Z.abs m < 2 ^ 49 ->
  exists v, (inject_Z (a - w - 2 * m) / 2 <= v)%Q /\
            (v <= inject_Z (b - w - 2 * m) / 2)%Q /\
            round_lo p w m = around v.
Proof.
  intros Ha Hb Hna Hnb Hnw Hnm. unfold round_lo, f64_of_Q.
  destruct (f64_round_between p a b Ha Hb) as (r1 & -> & H1a & H1b); try lia.
  destruct (f64_truediv_2_exact w) as (r2 & -> & E2); [lia|].
  destruct (f64_of_Z_exact m) as (r3 & -> & E3); [lia|].
  cbn [f64_sub].
  destruct (f64_round_between (r1 - r2) (a - w) (b - w)) as (r4 & -> & H4a & H4b);
    try lia; try (rewrite half_sub, E2; lra).
  cbn [f64_sub].
  destruct (f64_round_between (r4 - r3) (a - w - 2 * m) (b - w - 2 * m))
    as (r5 & -> & H5a & H5b); try lia;
    try (rewrite (half_sub _ (2 * m)), half_double, E3; lra).
  exists r5. split; [exact H5a | split; [exact H5b|]].
  apply (around_index r5 (a - w - 2 * m) (b - w - 2 * m)); try assumption; lia.
Qed.

Lemma round_hi_between (p : Q) (a b w m : Z) :
  (inject_Z a / 2 <= p)%Q -> (p <= inject_Z b / 2)%Q ->
  Z.abs a < 2 ^ 51 -> Z.abs b < 2 ^ 51 -> Z.abs w < 2 ^ 50 -> Z.abs m < 2 ^ 49 ->
  exists v, (inject_Z (a + w + 2 * m) / 2 <= v)%Q /\
            (v <= inject_Z (b + w + 2 * m) / 2)%Q /\
            round_hi p w m = around v.
Proof.
  intros Ha Hb Hna Hnb Hnw Hnm. unfold round_hi, f64_of_Q.
  destruct (f64_round_between p a b Ha Hb) as (r1 & -> & H1a & H1b); try lia.
  destruct (f64_truediv_2_exact w) as (r2 & -> & E2); [lia|].
  destruct (f64_of_Z_exact m) as (r3 & -> & E3); [lia|].
  cbn [f64_add].
  destruct (f64_round_between (r1 + r2) (a + w) (b + w)) as (r4 & -> & H4a & H4b);
    try lia; try (rewrite half_add, E2; lra).
  cbn [f64_add].
  destruct (f64_round_between (r4 + r3) (a + w + 2 * m) (b + w + 2 * m))
    as (r5 & -> & H5a & H5b); try lia;
    try (rewrite (half_add _ (2 * m)), half_double, E3; lra).
  exists r5. split; [exact H5a | split; [exact H5b|]].
  apply (around_index r5 (a + w + 2 * m) (b + w + 2 * m)); try assumption; lia.
Qed.



Lemma clamp_lo_max (r : Z) : (if r <? 0 then 0 else r) = Z.max 0 r.
Proof. destruct (Z.ltb_spec r 0); lia. Qed.

Lemma clamp_hi_min (r n : Z) : (if r >=? n then n - 1 else r) = Z.min (n - 1) r.
Proof. rewrite Z.geb_leb. destruct (Z.leb_spec n r); lia. Qed.

(** The bounds are the rounded raw bounds, each clamped on one side. *)
Lemma roi_bounds_raw (fh fw h w : Z) (pos : position) (offset : Z) :
  roi_bounds fh fw h w pos offset
  = (Z.max 0 (round_lo (fst pos) w offset),
     Z.min (fw - 1) (round_hi (fst pos) w offset),
     Z.max 0 (round_lo (snd pos) h offset),
     Z.min (fh - 1) (round_hi (snd pos) h offset)).
Proof.
  unfold roi_bounds, round_lo, round_hi. cbv zeta.
  now rewrite !clamp_lo_max, !clamp_hi_min.
Qed.




(* ================================================================== *)
(** ** The sub-pixel peak localizer *)

(** C1. Once the local minimizer has returned the window-local coordinates
    [(sx, sy)] for the peak window of size [N] around the integer-pixel
    maximum [(mx, my)] of the correlation surface, the position returned for
    the frame is [nx = mx - (2 - sx) + template_width / 2] and
    [ny = my - (2 - sy) + template_height / 2], with the origin [(xs, ys)] of
    the region of interest added. *)
Theorem subpixel_remap (P : Primitives) (frame templ : image) (pos : position)
        (offset N : Z) (xs xe ys ye : Z) (res : surface) (mx my : Z)
        (mat : list (list Q)) (f : Q -> Q -> Q) (sx sy : Q) :
  roi_bounds (Py.len (rows frame)) (ncols frame)
             (Py.len (rows templ)) (ncols templ) pos offset
  = (xs, xe, ys, ye) ->
  matchTemplate P (slice2 frame ys ye xs xe) templ = Ok res ->
  minMaxLoc P res = Ok (mx, my) ->
  pull_matrix N res (mx, my) = Ok mat ->
  interp2d P (arange 0 N) (arange 0 N) mat = Ok f ->
  fmin P (fun d => (- f (fst d) (snd d))%Q)
       ((inject_Z (N - 1) / 2)%Q, (inject_Z (N - 1) / 2)%Q) = Ok (sx, sy) ->
  find_max_subpixel_roi P frame templ pos offset N
  = Ok ((inject_Z xs + (inject_Z mx - (2 - sx) + inject_Z (ncols templ) / 2))%Q,
        (inject_Z ys + (inject_Z my - (2 - sy) + inject_Z (Py.len (rows templ)) / 2))%Q).
Proof.
  intros Hroi Hres Hmax Hmat Hf Hmin.
  unfold find_max_subpixel_roi, shape.
  rewrite Hroi, Hres. cbn [bind].
  rewrite Hmax. cbn [bind].
  rewrite Hmat. cbn [bind].
  rewrite Hf. cbn [bind].
  rewrite Hmin. cbn [bind fst snd].
  reflexivity.
Qed.

Lemma subpixel_remap_witness :
  find_max_subpixel_roi Toy.prims Toy.frame7 Toy.templ3
                        (inject_Z 3, inject_Z 3) 2 3
  = Ok ((inject_Z 0 + (inject_Z 2 - (2 - (2 # 2)) + inject_Z 3 / 2))%Q,
        (inject_Z 0 + (inject_Z 2 - (2 - (2 # 2)) + inject_Z 3 / 2))%Q).
Proof.
  eapply (subpixel_remap Toy.prims Toy.frame7 Toy.templ3
            (inject_Z 3, inject_Z 3) 2 3 0 6 0 6 _ 2 2 _ _ (2 # 2) (2 # 2)).
  - vm_compute. reflexivity.
  - reflexivity.
  - vm_compute. reflexivity.
  - reflexivity.
  - reflexivity.
  - vm_compute. reflexivity.
Defined.

(* ================================================================== *)
(** ** The trackers *)

Lemma bind_ok_inv {A B : Type} (m : result A) (k : A -> result B) (b : B) :
  bind m k = Ok b -> exists a, m = Ok a /\ k a = Ok b.
Proof. destruct m as [a|e]; cbn; [eauto | discriminate]. Qed.

Section Runs.

Variable step : image -> position -> result position.

Lemma fed_position_cons (curr p : position) (t : list position) (j : nat) :
  (j <= length t)%nat ->
  fed_position curr (p :: t) (S j) = fed_position p t j.
Proof.
  intros Hj. destruct j as [|j]; cbn; [reflexivity|].
  apply nth_indep. lia.
Qed.

(** A successful run appends one position per frame, each obtained from
    the position before it. *)
Lemma track_run_ok (frames : list image) :
  forall curr traj,
    track_run step frames curr = Ok traj ->
    length traj = length frames /\
    forall i frame, nth_error frames i = Some frame ->
      exists p, nth_error traj i = Some p /\
                step frame (fed_position curr traj i) = Ok p.
Proof.
  induction frames as [|f rest IH]; intros curr traj Hrun; cbn in Hrun.
  - injection Hrun as <-. split; [reflexivity|].
    intros [|i] frame Hi; discriminate.
  - apply bind_ok_inv in Hrun. destruct Hrun as (p & Hp & Hrun).
    apply bind_ok_inv in Hrun. destruct Hrun as (t & Ht & Hrun).
    injection Hrun as <-.
    destruct (IH _ _ Ht) as (Hlen & Hnth).
    split; [cbn; now rewrite Hlen|].
    intros [|i] frame Hi; cbn in Hi.
    + injection Hi as <-. exists p. now split.
    + destruct (Hnth i frame Hi) as (q & Hq & Hstep).
      exists q. split; [exact Hq|].
      rewrite fed_position_cons; [exact Hstep|].
      assert (i < length rest)%nat by (apply nth_error_Some; congruence).
      lia.
Qed.

(** Conversely, a chain of successful steps is the run. *)
Lemma track_run_complete (frames : list image) :
  forall curr traj,
    length traj = length frames ->
    (forall i frame, nth_error frames i = Some frame ->
       exists p, nth_error traj i = Some p /\
                 step frame (fed_position curr traj i) = Ok p) ->
    track_run step frames curr = Ok traj.
Proof.
  induction frames as [|f rest IH]; intros curr traj Hlen Hchain.
  - destruct traj; [reflexivity | discriminate].
  - destruct traj as [|p t]; [discriminate|].
    cbn in Hlen. injection Hlen as Hlen.
    destruct (Hchain 0%nat f eq_refl) as (p' & Hp' & Hstep).
    cbn in Hp', Hstep. injection Hp' as <-.
    cbn [track_run]. rewrite Hstep. cbn [bind].
    rewrite (IH p t Hlen); [reflexivity|].
    intros i frame Hi.
    destruct (Hchain (S i) frame Hi) as (q & Hq & Hq').
    exists q. split; [exact Hq|].
    rewrite fed_position_cons in Hq'; [exact Hq'|].
    assert (i < length rest)%nat by (apply nth_error_Some; congruence).
    lia.
Qed.

Lemma fold_left_raise (frames : list image) (e : exn) :
  fold_left
    (fun (acc : result (position * list position)) frame =>
       st <- acc ;;
       curr <- step frame (fst st) ;;
       Ok (curr, snd st ++ [curr]))
    frames (Raise e) = Raise e.
Proof. induction frames as [|f rest IH]; cbn; [reflexivity | exact IH]. Qed.

(** The fold of the specification, started from any state, against the
    run. *)
Lemma scan_run (frames : list image) :
  forall curr pts,
    (st <- fold_left
             (fun (acc : result (position * list position)) frame =>
                st <- acc ;;
                curr <- step frame (fst st) ;;
                Ok (curr, snd st ++ [curr]))
             frames (Ok (curr, pts)) ;;
     Ok (snd st))
    = (t <- track_run step frames curr ;; Ok (pts ++ t)).
Proof.
  induction frames as [|f rest IH]; intros curr pts; cbn.
  - now rewrite app_nil_r.
  - destruct (step f curr) as [p|e]; cbn.
    + rewrite IH. destruct (track_run step rest p) as [t|e]; cbn;
        [now rewrite <- app_assoc | reflexivity].
    + now rewrite fold_left_raise.
Qed.

End Runs.

(** The loop of [template_tracking] from any state of [currp] and
    [points]. *)
Lemma tracking_loop_run (P : Primitives) (template : image) (off sz : Z)
      (frames : list image) :
  forall currp points,
    tracking_loop P template off sz frames currp points
    = (t <- track_run (fun frame p => find_max_subpixel_roi P frame template p off sz)
                      frames currp ;;
       Ok (points ++ t)).
Proof.
  induction frames as [|f rest IH]; intros currp points;
    cbn [tracking_loop track_run bind].
  - now rewrite app_nil_r.
  - destruct (find_max_subpixel_roi P f template currp off sz) as [p|e];
      cbn [bind]; [|reflexivity].
    rewrite IH. destruct (track_run _ rest p) as [t|e]; cbn [bind];
      [now rewrite <- app_assoc | reflexivity].
Qed.

Lemma template_tracking_run (P : Primitives) (frames : list image)
      (template : image) (init : position) (off sz : Z) :
  template_tracking P frames template init off sz
  = track_run (fun frame p => find_max_subpixel_roi P frame template p off sz)
              frames init.
Proof.
  unfold template_tracking. rewrite tracking_loop_run.
  destruct (track_run _ frames init); reflexivity.
Qed.

(** C3. The trajectory of [template_tracking] is the left fold of the
    per-frame refinement over the frames, and it is returned exactly when
    every link of the chain succeeds: element [i] is the refined position of
    frame [i], computed from the initial position for frame 0 and from
    element [i-1] for every later frame. *)
Theorem template_tracking_is_scan (P : Primitives) (frames : list image)
        (template : image) (init : position) (off sz : Z) :
  template_tracking P frames template init off sz
  = track_scan (fun frame p => find_max_subpixel_roi P frame template p off sz)
               init frames
  /\
  forall traj,
    template_tracking P frames template init off sz = Ok traj
    <->
    (length traj = length frames /\
     forall i frame, nth_error frames i = Some frame ->
       exists p, nth_error traj i = Some p /\
                 find_max_subpixel_roi P frame template
                                       (fed_position init traj i) off sz = Ok p).
Proof.
  split.
  - rewrite template_tracking_run.
    pose proof (scan_run
                  (fun frame p => find_max_subpixel_roi P frame template p off sz)
                  frames init []) as Hscan.
    unfold track_scan. etransitivity; [|symmetry; exact Hscan].
    destruct (track_run _ frames init); reflexivity.
  - intros traj. rewrite template_tracking_run. split.
    + apply track_run_ok.
    + intros [Hlen Hchain]. now apply track_run_complete.
Qed.

Lemma template_tracking_is_scan_witness :
  track_scan (fun frame p => find_max_subpixel_roi Toy.prims frame Toy.templ3 p 2 3)
             (inject_Z 3, inject_Z 3) Toy.frames3
  = Ok [ (10 # 4, 10 # 4); (10 # 4, 10 # 4); (10 # 4, 10 # 4) ]%Q.
Proof.
  rewrite <- (proj1 (template_tracking_is_scan Toy.prims Toy.frames3 Toy.templ3
                       (inject_Z 3, inject_Z 3) 2 3)).
  vm_compute. reflexivity.
Defined.

Lemma track_run_raise (step : image -> position -> result position)
      (frames : list image) :
  forall curr e,
    track_run step frames curr = Raise e ->
    exists i frame pos,
      nth_error frames i = Some frame /\ step frame pos = Raise e.
Proof.
  induction frames as [|f rest IH]; intros curr e Hrun; cbn in Hrun.
  - discriminate.
  - destruct (step f curr) as [p|e'] eqn:Hstep; cbn in Hrun.
    + destruct (track_run step rest p) as [t|e'] eqn:Hrest; cbn in Hrun;
        [discriminate|].
      injection Hrun as ->.
      destruct (IH _ _ Hrest) as (i & frame & pos & Hi & Hpos).
      exists (S i), frame, pos. now split.
    + injection Hrun as ->. exists 0%nat, f, curr. now split.
Qed.

Section DualRuns.

Variables stepl stepr : image -> position -> result position.

Lemma dual_run_split (frames : list image) :
  forall pl pr pts,
    dual_run stepl stepr frames pl pr = Ok pts ->
    track_run stepl frames pl = Ok (map fst pts) /\
    track_run stepr frames pr = Ok (map snd pts).
Proof.
  induction frames as [|f rest IH]; intros pl pr pts Hrun; cbn in Hrun.
  - injection Hrun as <-. now split.
  - apply bind_ok_inv in Hrun. destruct Hrun as (l & Hl & Hrun).
    apply bind_ok_inv in Hrun. destruct Hrun as (r & Hr & Hrun).
    apply bind_ok_inv in Hrun. destruct Hrun as (t & Ht & Hrun).
    injection Hrun as <-.
    destruct (IH _ _ _ Ht) as (IHl & IHr).
    cbn. rewrite Hl, Hr. cbn. now rewrite IHl, IHr.
Qed.

Lemma dual_run_join (frames : list image) :
  forall pl pr l r,
    track_run stepl frames pl = Ok l ->
    track_run stepr frames pr = Ok r ->
    dual_run stepl stepr frames pl pr = Ok (combine l r).
Proof.
  induction frames as [|f rest IH]; intros pl pr l r Hl Hr;
    cbn in Hl, Hr.
  - injection Hl as <-. injection Hr as <-. reflexivity.
  - apply bind_ok_inv in Hl. destruct Hl as (p & Hp & Hl).
    apply bind_ok_inv in Hl. destruct Hl as (tl & Htl & Hl).
    apply bind_ok_inv in Hr. destruct Hr as (q & Hq & Hr).
    apply bind_ok_inv in Hr. destruct Hr as (tr & Htr & Hr).
    injection Hl as <-. injection Hr as <-.
    cbn. rewrite Hp. cbn. rewrite Hq. cbn. now rewrite (IH _ _ _ _ Htl Htr).
Qed.

Lemma dual_run_raise (frames : list image) :
  forall pl pr e,
    dual_run stepl stepr frames pl pr = Raise e ->
    exists i frame pos,
      nth_error frames i = Some frame /\
      (stepl frame pos = Raise e \/ stepr frame pos = Raise e).
Proof.
  induction frames as [|f rest IH]; intros pl pr e Hrun; cbn in Hrun.
  - discriminate.
  - destruct (stepl f pl) as [l|e'] eqn:Hl; cbn in Hrun.
    + destruct (stepr f pr) as [r|e'] eqn:Hr; cbn in Hrun.
      * destruct (dual_run stepl stepr rest l r) as [t|e'] eqn:Hrest;
          cbn in Hrun; [discriminate|].
        injection Hrun as ->.
        destruct (IH _ _ _ Hrest) as (i & frame & pos & Hi & Hpos).
        exists (S i), frame, pos. now split.
      * injection Hrun as ->. exists 0%nat, f, pr. split; [reflexivity | now right].
    + injection Hrun as ->. exists 0%nat, f, pl. split; [reflexivity | now left].
Qed.

End DualRuns.

(** The loop of [template_tracking_dual] from any state of [pl], [pr] and
    [points]. *)
Lemma tracking_dual_loop_run (P : Primitives) (lt rt : image) (off sz : Z)
      (frames : list image) :
  forall pl pr points,
    tracking_dual_loop P lt rt off sz frames pl pr points
    = (t <- dual_run (fun frame p => find_max_subpixel_roi P frame lt p off sz)
                     (fun frame p => find_max_subpixel_roi P frame rt p off sz)
                     frames pl pr ;;
       Ok (points ++ t)).
Proof.
  induction frames as [|f rest IH]; intros pl pr points;
    cbn [tracking_dual_loop dual_run bind].
  - now rewrite app_nil_r.
  - destruct (find_max_subpixel_roi P f lt pl off sz) as [l|e];
      cbn [bind]; [|reflexivity].
    destruct (find_max_subpixel_roi P f rt pr off sz) as [r|e];
      cbn [bind]; [|reflexivity].
    rewrite IH. destruct (dual_run _ _ rest l r) as [t|e]; cbn [bind];
      [now rewrite <- app_assoc | reflexivity].
Qed.

Lemma template_tracking_dual_run (P : Primitives) (frames : list image)
      (lt rt : image) (inits : position * position) (off sz : Z) :
  template_tracking_dual P frames lt rt inits off sz
  = dual_run (fun frame p => find_max_subpixel_roi P frame lt p off sz)
             (fun frame p => find_max_subpixel_roi P frame rt p off sz)
             frames (fst inits) (snd inits).
Proof.
  unfold template_tracking_dual. rewrite tracking_dual_loop_run.
  destruct (dual_run _ _ frames _ _); reflexivity.
Qed.

(** Both trackers succeeding is enough for the dual tracker to succeed, with
    the two trajectories paired frame by frame. *)
Lemma dual_of_two_single_trackers (P : Primitives) (frames : list image)
      (lt rt : image) (inits : position * position) (off sz : Z)
      (l r : list position) :
  template_tracking P frames lt (fst inits) off sz = Ok l ->
  template_tracking P frames rt (snd inits) off sz = Ok r ->
  template_tracking_dual P frames lt rt inits off sz = Ok (combine l r).
Proof.
  rewrite !template_tracking_run, template_tracking_dual_run.
  apply dual_run_join.
Qed.

(** C5. Whenever [template_tracking_dual] returns, the left components of
    its output are the trajectory of [template_tracking] run on the same
    frames with the left template and the left initial position, and the
    right components that of the right template and right initial position;
    with equal templates and equal initial positions the two trajectories
    coincide. *)
Theorem dual_is_two_single_trackers (P : Primitives) (frames : list image)
        (left_template right_template : image)
        (inits : position * position) (off sz : Z)
        (pts : list (position * position)) :
  template_tracking_dual P frames left_template right_template inits off sz
  = Ok pts ->
  template_tracking P frames left_template (fst inits) off sz
  = Ok (map fst pts) /\
  template_tracking P frames right_template (snd inits) off sz
  = Ok (map snd pts) /\
  (left_template = right_template -> fst inits = snd inits ->
   map fst pts = map snd pts).
Proof.
  rewrite template_tracking_dual_run, !template_tracking_run.
  intros Hdual. apply dual_run_split in Hdual. destruct Hdual as (Hl & Hr).
  split; [exact Hl | split; [exact Hr|]].
  intros Ht Hi. rewrite Ht, Hi in Hl. congruence.
Qed.

Lemma dual_is_two_single_trackers_witness :
  template_tracking Toy.prims Toy.frames3 Toy.templ3 (inject_Z 3, inject_Z 3) 2 3
  = Ok [ (10 # 4, 10 # 4); (10 # 4, 10 # 4); (10 # 4, 10 # 4) ]%Q /\
  template_tracking Toy.prims Toy.frames3 Toy.templ3 (inject_Z 2, inject_Z 4) 2 3
  = Ok [ (10 # 4, 10 # 4); (10 # 4, 10 # 4); (10 # 4, 10 # 4) ]%Q.
Proof.
  pose proof (dual_is_two_single_trackers Toy.prims Toy.frames3
                Toy.templ3 Toy.templ3
                ((inject_Z 3, inject_Z 3), (inject_Z 2, inject_Z 4)) 2 3
                [ ((10 # 4, 10 # 4), (10 # 4, 10 # 4));
                  ((10 # 4, 10 # 4), (10 # 4, 10 # 4));
                  ((10 # 4, 10 # 4), (10 # 4, 10 # 4)) ]%Q) as H.
  destruct H as (Hl & Hr & _).
  - vm_compute. reflexivity.
  - split; [exact Hl | exact Hr].
Defined.

(** C4. A successful run of [template_tracking] returns exactly one position
    per input frame, and a successful run of [template_tracking_dual]
    exactly one pair of positions per input frame, in frame order: the pair
    at index [i] holds the two refined positions of frame [i]. *)
Theorem trajectory_length (P : Primitives) (frames : list image)
        (template left_template right_template : image)
        (init : position) (inits : position * position) (off sz : Z) :
  (forall traj,
     template_tracking P frames template init off sz = Ok traj ->
     length traj = length frames) /\
  (forall pts,
     template_tracking_dual P frames left_template right_template inits off sz
     = Ok pts ->
     length pts = length frames /\
     forall i frame, nth_error frames i = Some frame ->
       exists pl pr,
         nth_error pts i = Some (pl, pr) /\
         find_max_subpixel_roi P frame left_template
           (fed_position (fst inits) (map fst pts) i) off sz = Ok pl /\
         find_max_subpixel_roi P frame right_template
           (fed_position (snd inits) (map snd pts) i) off sz = Ok pr).
Proof.
  split.
  - intros traj. rewrite template_tracking_run. intros Hrun.
    now apply track_run_ok in Hrun.
  - intros pts. rewrite template_tracking_dual_run. intros Hrun.
    apply dual_run_split in Hrun. destruct Hrun as (Hl & Hr).
    apply track_run_ok in Hl, Hr.
    destruct Hl as (Hlenl & Hchl). destruct Hr as (_ & Hchr).
    rewrite length_map in Hlenl. split; [exact Hlenl|].
    intros i frame Hi.
    destruct (Hchl i frame Hi) as (pl & Hpl & Hsl).
    destruct (Hchr i frame Hi) as (pr & Hpr & Hsr).
    rewrite nth_error_map in Hpl, Hpr.
    destruct (nth_error pts i) as [[a b]|]; [|discriminate].
    cbn in Hpl, Hpr. injection Hpl as <-. injection Hpr as <-.
    exists a, b. now repeat split.
Qed.

Lemma trajectory_length_witness :
  exists traj pts,
    template_tracking Toy.prims Toy.frames3 Toy.templ3
                      (inject_Z 3, inject_Z 3) 2 3 = Ok traj /\
    length traj = 3%nat /\
    template_tracking_dual Toy.prims Toy.frames3 Toy.templ3 Toy.templ3
      ((inject_Z 3, inject_Z 3), (inject_Z 2, inject_Z 4)) 2 3 = Ok pts /\
    length pts = 3%nat.
Proof.
  destruct (trajectory_length Toy.prims Toy.frames3
              Toy.templ3 Toy.templ3 Toy.templ3 (inject_Z 3, inject_Z 3)
              ((inject_Z 3, inject_Z 3), (inject_Z 2, inject_Z 4)) 2 3)
    as (Hsingle & Hdual).
  eexists. eexists.
  split; [vm_compute; reflexivity|].
  split; [apply Hsingle; vm_compute; reflexivity|].
  split; [vm_compute; reflexivity|].
  apply Hdual. vm_compute. reflexivity.
Defined.

(** C9, on concrete inputs: with no frames and a template without samples,
    both entry points return the empty trajectory; no error is raised. *)
Lemma empty_sequence_no_error :
  template_tracking Toy.prims [] Toy.templ0 (inject_Z 0, inject_Z 0) 50 11
  = Ok [] /\
  template_tracking_dual Toy.prims [] Toy.templ0 Toy.templ0
    ((inject_Z 0, inject_Z 0), (inject_Z 0, inject_Z 0)) 50 11
  = Ok [].
Proof. split; reflexivity. Qed.

(** C9, as the code behaves. For the empty frame sequence both entry points
    return the empty trajectory, whatever the template (one without samples
    included). Neither validates its arguments before the loop: an error of
    either entry point is an error raised by the per-frame step on one of
    the frames. *)
Theorem empty_sequence_returns_empty (P : Primitives)
        (template left_template right_template : image)
        (init : position) (inits : position * position) (off sz : Z) :
  template_tracking P [] template init off sz = Ok [] /\
  template_tracking_dual P [] left_template right_template inits off sz = Ok [] /\
  (forall frames e,
     template_tracking P frames template init off sz = Raise e ->
     exists i frame pos,
       nth_error frames i = Some frame /\
       find_max_subpixel_roi P frame template pos off sz = Raise e) /\
  (forall frames e,
     template_tracking_dual P frames left_template right_template inits off sz
     = Raise e ->
     exists i frame pos,
       nth_error frames i = Some frame /\
       (find_max_subpixel_roi P frame left_template pos off sz = Raise e \/
        find_max_subpixel_roi P frame right_template pos off sz = Raise e)).
Proof.
  split; [reflexivity | split; [reflexivity | split]].
  - intros frames e. rewrite template_tracking_run. apply track_run_raise.
  - intros frames e. rewrite template_tracking_dual_run.
    intros Hrun. apply dual_run_raise in Hrun. exact Hrun.
Qed.

Lemma empty_sequence_returns_empty_witness :
  exists i frame pos,
    nth_error [Toy.frame7] i = Some frame /\
    find_max_subpixel_roi Toy.prims frame Toy.templ0 pos 50 11 = Raise ValueError.
Proof.
  destruct (empty_sequence_returns_empty Toy.prims Toy.templ0 Toy.templ0 Toy.templ0
              (inject_Z 3, inject_Z 3)
              ((inject_Z 3, inject_Z 3), (inject_Z 3, inject_Z 3)) 50 11)
    as (_ & _ & Hraise & _).
  apply Hraise. vm_compute. reflexivity.
Defined.

(* ================================================================== *)
(** ** The correlation matcher *)

Section MaximumScan.

Variable all : list (list Q).

Lemma scan_inv_ext (best : option (Q * (Z * Z))) (seen seen' : Z -> Z -> Prop) :
  (forall x y, seen x y <-> seen' x y) ->
  scan_inv all best seen -> scan_inv all best seen'.
Proof.
  intros Hext. unfold scan_inv. destruct best as [[b [bx by_]]|].
  - intros (Hs & Hb & Hmax). split; [now apply Hext|].
    split; [exact Hb|]. intros x y Hxy. apply Hmax. now apply Hext.
  - intros Hnone x y Hxy. apply (Hnone x y). now apply Hext.
Qed.

(** Visiting one more location keeps the invariant. *)
Lemma scan_inv_step (best : option (Q * (Z * Z))) (seen : Z -> Z -> Prop)
      (v : Q) (x0 y0 : Z) :
  v = entry 0%Q all y0 x0 ->
  scan_inv all best seen ->
  scan_inv all
    match best with
    | None => Some (v, (x0, y0))
    | Some (b, _) =>
        match Qcompare b v with
        | Lt => Some (v, (x0, y0))
        | _ => best
        end
    end
    (fun x y => seen x y \/ (x = x0 /\ y = y0)).
Proof.
  intros Hv Hinv. destruct best as [[b [bx by_]]|]; cbn in Hinv.
  - destruct Hinv as (Hs & Hb & Hmax).
    destruct (Qcompare b v) eqn:E.
    + cbn. split; [now left | split; [exact Hb|]].
      intros x y [Hxy|[-> ->]]; [now apply Hmax|].
      rewrite <- Hv. apply Qeq_alt in E. rewrite E. apply Qle_refl.
    + cbn. split; [now right | split; [exact Hv|]].
      apply Qlt_alt in E.
      intros x y [Hxy|[-> ->]].
      * apply Qle_trans with b; [now apply Hmax | now apply Qlt_le_weak].
      * rewrite <- Hv. apply Qle_refl.
    + cbn. split; [now left | split; [exact Hb|]].
      intros x y [Hxy|[-> ->]]; [now apply Hmax|].
      rewrite <- Hv. apply Qgt_alt in E. now apply Qlt_le_weak.
  - cbn. split; [now right | split; [exact Hv|]].
    intros x y [Hxy|[-> ->]]; [now elim (Hinv x y)|].
    rewrite <- Hv. apply Qle_refl.
Qed.

Lemma scan_row_inv (row : list Q) (y0 : Z) :
  forall x0 best seen,
    (forall j, (j < length row)%nat ->
               nth j row 0%Q = entry 0%Q all y0 (x0 + Z.of_nat j)) ->
    scan_inv all best seen ->
    scan_inv all (Cv2Model.scan_row row x0 y0 best)
             (fun x y => seen x y \/ (y = y0 /\ x0 <= x < x0 + Py.len row)).
Proof.
  induction row as [|v row IH]; intros x0 best seen Hrow Hinv.
  - cbn. eapply scan_inv_ext; [|exact Hinv].
    intros x y. unfold Py.len. cbn. split; [now left|].
    intros [H|[_ H]]; [exact H | lia].
  - cbn [Cv2Model.scan_row].
    eapply scan_inv_ext; [|apply IH].
    3: { apply (scan_inv_step best seen v x0 y0); [|exact Hinv].
         pose proof (Hrow 0%nat ltac:(cbn; lia)) as H0.
         cbn [nth Z.of_nat] in H0. now rewrite Z.add_0_r in H0. }
    2: { intros j Hj.
         replace (x0 + 1 + Z.of_nat j) with (x0 + Z.of_nat (S j)) by lia.
         rewrite <- Hrow by (cbn; lia). reflexivity. }
    intros x y. cbv beta. unfold Py.len. cbn [length].
    split.
    + intros [[H|[-> ->]]|[-> H]]; [now left | right; lia | right; lia].
    + intros [H|[-> H]]; [now left; left|].
      destruct (Z.eq_dec x x0) as [->|Hne]; [left; now right | right; lia].
Qed.

Lemma scan_rows_inv (rs : list (list Q)) :
  forall y0 best seen,
    0 <= y0 ->
    (forall j, (j < length rs)%nat ->
               nth j rs [] = nth (Z.to_nat (y0 + Z.of_nat j)) all []) ->
    scan_inv all best seen ->
    scan_inv all (Cv2Model.scan_rows rs y0 best)
             (fun x y => seen x y \/
                         (y0 <= y < y0 + Py.len rs /\
                          0 <= x < Py.len (nth (Z.to_nat y) all []))).
Proof.
  induction rs as [|r rs IH]; intros y0 best seen Hy0 Hrows Hinv.
  - cbn. eapply scan_inv_ext; [|exact Hinv].
    intros x y. unfold Py.len. cbn [length]. split; [now left|].
    intros [H|[H _]]; [exact H | lia].
  - cbn [Cv2Model.scan_rows].
    assert (Hr : r = nth (Z.to_nat y0) all []).
    { rewrite <- (Z.add_0_r y0) at 1.
      change 0 with (Z.of_nat 0). rewrite <- Hrows by (cbn; lia).
      reflexivity. }
    eapply scan_inv_ext; [|apply IH].
    4: { apply (scan_row_inv r y0 0 best seen); [|exact Hinv].
         intros j Hj. unfold entry. rewrite <- Hr. cbn [Z.add].
         now rewrite Nat2Z.id. }
    3: { intros j Hj.
         replace (y0 + 1 + Z.of_nat j) with (y0 + Z.of_nat (S j)) by lia.
         rewrite <- Hrows by (cbn; lia). reflexivity. }
    2: lia.
    intros x y. cbv beta. unfold Py.len. cbn [length]. rewrite Hr. split.
    + intros [[H|[-> H]]|[H1 H2]]; [now left | right | right].
      * split; [lia|]. unfold Py.len in H. exact H.
      * split; [lia | exact H2].
    + intros [H|[H1 H2]]; [now left; left|].
      destruct (Z.eq_dec y y0) as [->|Hne].
      * left. right. split; [reflexivity | exact H2].
      * right. split; [lia | exact H2].
Qed.

End MaximumScan.

(** On a surface with at least one row and one column, the scan returns the
    location of a largest score. *)
Lemma minMaxLoc_maximum (res : surface) :
  wf_ndarray res -> 0 < Py.len (rows res) -> 0 < ncols res ->
  exists mx my,
    Cv2Model.minMaxLoc res = Ok (mx, my) /\
    0 <= mx < ncols res /\ 0 <= my < Py.len (rows res) /\
    forall x y, 0 <= x < ncols res -> 0 <= y < Py.len (rows res) ->
      (entry 0%Q (rows res) y x <= entry 0%Q (rows res) my mx)%Q.
Proof.
  intros Hwf HH HW.
  assert (Hlen : forall y, 0 <= y < Py.len (rows res) ->
                   Py.len (nth (Z.to_nat y) (rows res) []) = ncols res).
  { intros y Hy. unfold wf_ndarray in Hwf. rewrite Forall_forall in Hwf.
    apply Hwf. apply nth_In. unfold Py.len in Hy. lia. }
  pose proof (scan_rows_inv (rows res) (rows res) 0 None (fun _ _ => False)
                ltac:(lia) ltac:(intros; cbn [Z.add]; now rewrite Nat2Z.id)
                ltac:(cbn; tauto)) as Hinv.
  unfold Cv2Model.minMaxLoc.
  destruct (Cv2Model.scan_rows (rows res) 0 None) as [[b [mx my]]|];
    cbn in Hinv.
  - destruct Hinv as ([[]|[Hy Hx]] & Hb & Hmax).
    exists mx, my. split; [reflexivity|].
    rewrite Hlen in Hx by lia.
    split; [exact Hx | split; [lia|]].
    intros x y Hx' Hy'. rewrite <- Hb. apply Hmax. right.
    rewrite Hlen by lia. lia.
  - exfalso. apply (Hinv 0 0). right. rewrite Hlen by lia. lia.
Qed.

Lemma matchTemplate_model_raise (score : image -> image -> Z -> Z -> Q)
      (roi templ : image) :
  fst (shape roi) < fst (shape templ) \/ snd (shape roi) < snd (shape templ) ->
  Cv2Model.matchTemplate score roi templ = Raise CvError.
Proof.
  unfold Cv2Model.matchTemplate, shape. cbn [fst snd]. intros Hsmall.
  destruct (Z.ltb_spec (Py.len (rows roi)) (Py.len (rows templ)));
    [reflexivity|].
  destruct (Z.ltb_spec (ncols roi) (ncols templ)); [reflexivity | lia].
Qed.

Lemma matchTemplate_model_ok (score : image -> image -> Z -> Z -> Q)
      (roi templ : image) :
  fst (shape templ) <= fst (shape roi) ->
  snd (shape templ) <= snd (shape roi) ->
  exists res,
    Cv2Model.matchTemplate score roi templ = Ok res /\
    shape res = (fst (shape roi) - fst (shape templ) + 1,
                 snd (shape roi) - snd (shape templ) + 1) /\
    wf_ndarray res.
Proof.
  unfold Cv2Model.matchTemplate, shape. cbn [fst snd]. intros Hh Hw.
  destruct (Z.ltb_spec (Py.len (rows roi)) (Py.len (rows templ))); [lia|].
  destruct (Z.ltb_spec (ncols roi) (ncols templ)); [lia|].
  cbn [orb]. eexists. split; [reflexivity|]. cbn [rows ncols]. split.
  - f_equal. unfold Py.len at 1. rewrite length_map, range_length. lia.
  - unfold wf_ndarray. cbn [rows ncols]. apply Forall_forall.
    intros r Hr. apply in_map_iff in Hr. destruct Hr as (y & <- & _).
    unfold Py.len. rewrite length_map, range_length. lia.
Qed.

(** The step, once the correlation has returned a surface: it locates the
    maximum and goes on from there. *)
Lemma find_max_subpixel_roi_located (P : Primitives) (frame templ : image)
      (pos : position) (offset N : Z) (res : surface) :
  matchTemplate P (roi_of frame templ pos offset) templ = Ok res ->
  find_max_subpixel_roi P frame templ pos offset N
  = (max_loc <- minMaxLoc P res ;;
     refine_from P frame templ pos offset N res max_loc).
Proof.
  unfold roi_of, find_max_subpixel_roi, refine_from, shape.
  destruct (roi_bounds (Py.len (rows frame)) (ncols frame)
                       (Py.len (rows templ)) (ncols templ) pos offset)
    as [[[xs xe] ys] ye].
  intros ->. reflexivity.
Qed.

Lemma find_max_subpixel_roi_unmatched (P : Primitives) (frame templ : image)
      (pos : position) (offset N : Z) (e : exn) :
  matchTemplate P (roi_of frame templ pos offset) templ = Raise e ->
  find_max_subpixel_roi P frame templ pos offset N = Raise e.
Proof.
  unfold roi_of, find_max_subpixel_roi, shape.
  destruct (roi_bounds (Py.len (rows frame)) (ncols frame)
                       (Py.len (rows templ)) (ncols templ) pos offset)
    as [[[xs xe] ys] ye].
  intros ->. reflexivity.
Qed.

(** C8, on concrete inputs: the 12 x 12 template [OpenCv.templ12] on the
    7 x 7 frame [Toy.frame7] at position (3, 3) with margin 0 and window
    size 5. The clamped region of interest is [frame[0:6, 0:6]], smaller
    than the template in both dimensions; a correlation routine that, like
    OpenCV's, exchanges image and template in that case returns a 7 x 7
    surface with its maximum at (3, 3), and the step returns a position. *)
Lemma undersized_roi_returns_position :
  shape (roi_of Toy.frame7 OpenCv.templ12 (inject_Z 3, inject_Z 3) 0) = (6, 6) /\
  shape OpenCv.templ12 = (12, 12) /\
  exists p,
    find_max_subpixel_roi OpenCv.prims Toy.frame7 OpenCv.templ12
                          (inject_Z 3, inject_Z 3) 0 5 = Ok p /\
    (fst p == inject_Z 9)%Q /\ (snd p == inject_Z 9)%Q.
Proof.
  split; [vm_compute; reflexivity|].
  split; [vm_compute; reflexivity|].
  eexists. split; [vm_compute; reflexivity|].
  split; reflexivity.
Qed.

(** C8, as the code behaves. The step has no size check of its own: it
    hands the clamped region of interest to the correlation routine; an
    error of that routine is the result of the step, and no position is
    returned; when the routine returns a surface, the step locates the
    maximum of that surface with [minMaxLoc] and computes its result from
    that location. With the correlation primitive of the specification, a
    region smaller than the template in either dimension makes the step
    raise, and a region at least template-sized in both gives a surface of
    size [(roi_h - templ_h + 1) x (roi_w - templ_w + 1)] whose largest score
    is located, the step's result being computed from that location. *)
Theorem correlation_step (P : Primitives)
        (score : image -> image -> Z -> Z -> Q)
        (frame templ : image) (pos : position) (margin N : Z) :
  let roi := roi_of frame templ pos margin in
  let C := mk_Primitives (Cv2Model.matchTemplate score) Cv2Model.minMaxLoc
                         (interp2d P) (fmin P) in
  (forall e, matchTemplate P roi templ = Raise e ->
             find_max_subpixel_roi P frame templ pos margin N = Raise e) /\
  (forall res, matchTemplate P roi templ = Ok res ->
     find_max_subpixel_roi P frame templ pos margin N
     = (max_loc <- minMaxLoc P res ;;
        refine_from P frame templ pos margin N res max_loc)) /\
  (fst (shape roi) < fst (shape templ) \/ snd (shape roi) < snd (shape templ) ->
   find_max_subpixel_roi C frame templ pos margin N = Raise CvError) /\
  (fst (shape templ) <= fst (shape roi) ->
   snd (shape templ) <= snd (shape roi) ->
   exists res mx my,
     matchTemplate C roi templ = Ok res /\
     shape res = (fst (shape roi) - fst (shape templ) + 1,
                  snd (shape roi) - snd (shape templ) + 1) /\
     minMaxLoc C res = Ok (mx, my) /\
     0 <= mx < snd (shape res) /\ 0 <= my < fst (shape res) /\
     (forall x y, 0 <= x < snd (shape res) -> 0 <= y < fst (shape res) ->
        (entry 0%Q (rows res) y x <= entry 0%Q (rows res) my mx)%Q) /\
     find_max_subpixel_roi C frame templ pos margin N
     = refine_from C frame templ pos margin N res (mx, my)).
Proof.
  intros roi C. split; [|split; [|split]].
  - intros e. apply find_max_subpixel_roi_unmatched.
  - intros res. apply find_max_subpixel_roi_located.
  - intros Hsmall.
    apply (find_max_subpixel_roi_unmatched C).
    now apply matchTemplate_model_raise.
  - intros Hh Hw.
    destruct (matchTemplate_model_ok score roi templ Hh Hw)
      as (res & Hres & Hshape & Hwf).
    assert (Hdims : 0 < Py.len (rows res) /\ 0 < ncols res).
    { pose proof (f_equal fst Hshape) as H1.
      pose proof (f_equal snd Hshape) as H2.
      unfold shape in H1, H2, Hh, Hw. cbn [fst snd] in H1, H2, Hh, Hw. lia. }
    destruct (minMaxLoc_maximum res Hwf (proj1 Hdims) (proj2 Hdims))
      as (mx & my & Hloc & Hmx & Hmy & Hmax).
    exists res, mx, my.
    split; [exact Hres|]. split; [exact Hshape|]. split; [exact Hloc|].
    change (snd (shape res)) with (ncols res).
    change (fst (shape res)) with (Py.len (rows res)).
    split; [exact Hmx|]. split; [exact Hmy|]. split; [exact Hmax|].
    rewrite (find_max_subpixel_roi_located C frame templ pos margin N res Hres).
    change (minMaxLoc C res) with (Cv2Model.minMaxLoc res).
    now rewrite Hloc.
Qed.

Lemma correlation_step_witness :
  find_max_subpixel_roi Toy.prims Toy.frame7 Toy.templ3
                        (inject_Z 0, inject_Z 0) 0 3 = Raise CvError /\
  exists res mx my,
    matchTemplate Toy.prims
      (roi_of Toy.frame7 Toy.templ3 (inject_Z 3, inject_Z 3) 2) Toy.templ3
    = Ok res /\
    shape res = (4, 4) /\
    minMaxLoc Toy.prims res = Ok (mx, my) /\
    mx = 2 /\ my = 2 /\
    find_max_subpixel_roi Toy.prims Toy.frame7 Toy.templ3
                          (inject_Z 3, inject_Z 3) 2 3
    = refine_from Toy.prims Toy.frame7 Toy.templ3
                  (inject_Z 3, inject_Z 3) 2 3 res (mx, my).
Proof.
  split.
  - apply (proj1 (proj2 (proj2
       (correlation_step Toy.prims Toy.ssd_score
          Toy.frame7 Toy.templ3 (inject_Z 0, inject_Z 0) 0 3)))).
    right. vm_compute. reflexivity.
  - destruct (correlation_step Toy.prims Toy.ssd_score
                Toy.frame7 Toy.templ3 (inject_Z 3, inject_Z 3) 2 3)
      as (_ & _ & _ & Hok).
    destruct Hok as (res & mx & my & Hres & Hshape & Hloc & _ & _ & _ & Hstep);
      [vm_compute; discriminate | vm_compute; discriminate |].
    exists res, mx, my.
    split; [exact Hres|]. split; [exact Hshape|]. split; [exact Hloc|].
    split; [|split; [|exact Hstep]].
    + vm_compute in Hres. injection Hres as <-.
      vm_compute in Hloc. now injection Hloc as <- _.
    + vm_compute in Hres. injection Hres as <-.
      vm_compute in Hloc. now injection Hloc as _ <-.
Defined.

(* ================================================================== *)
(** ** Further properties of the peak window extractor *)

Lemma slice_wrapped_empty {A : Type} (l : list A) (a b : Z) :
  a < 0 -> 0 <= b -> b <= a + Py.len l ->
  Py.slice l a b = [].
Proof.
  intros Ha Hb Hab. unfold Py.slice, Py.slice_bound. cbv zeta.
  destruct (Z.ltb_spec a 0); [|lia].
  destruct (Z.ltb_spec b 0); [lia|].
  replace (Z.to_nat (Z.min b (Py.len l) - Z.max 0 (a + Py.len l))) with 0%nat
    by lia.
  reflexivity.
Qed.

Lemma slice_to_end {A : Type} (l : list A) (a b : Z) :
  0 <= a -> a <= Py.len l -> Py.len l <= b ->
  Py.slice l a b = skipn (Z.to_nat a) l.
Proof.
  intros Ha Hal Hb. unfold Py.slice, Py.slice_bound. cbv zeta.
  destruct (Z.ltb_spec a 0); [lia|].
  destruct (Z.ltb_spec b 0); [pose proof (len_nonneg l); lia|].
  rewrite Z.min_r, Z.min_l by lia.
  apply firstn_all2. rewrite length_skipn. unfold Py.len in *. lia.
Qed.

Lemma even_half (N : Z) :
  0 < N -> Z.even N = true ->
  Z.quot (N - 1) 2 = N / 2 - 1 /\ Z.quot (N - 2) 2 = N / 2 - 1 /\
  2 * (N / 2 - 1) + 1 = N - 1 /\ 0 <= N / 2 - 1.
Proof.
  intros Hpos Heven.
  rewrite Zeven_mod in Heven. apply Z.eqb_eq in Heven.
  assert (2 <= N) by (Z.div_mod_to_equations; lia).
  rewrite !Z.quot_div_nonneg by lia.
  Z.div_mod_to_equations. lia.
Qed.

(** X1. [int((size - 1) / 2)] truncates: an even window size [N] behaves as
    [N - 1]. When the neighbourhood of half-width [N/2 - 1] fits, the window
    returned has [N - 1] rows of [N - 1] entries, not [N]. *)
Theorem pull_matrix_even_size (N mx my : Z) (surf : surface) :
  wf_ndarray surf -> 0 < N -> Z.even N = true ->
  N / 2 - 1 <= mx -> mx + (N / 2 - 1) < ncols surf ->
  N / 2 - 1 <= my -> my + (N / 2 - 1) < Py.len (rows surf) ->
  pull_matrix N surf (mx, my) = pull_matrix (N - 1) surf (mx, my) /\
  exists mat,
    pull_matrix N surf (mx, my) = Ok mat /\
    Py.len mat = N - 1 /\
    forall row, In row mat -> Py.len row = N - 1.
Proof.
  intros Hwf Hpos Heven Hx1 Hx2 Hy1 Hy2.
  destruct (even_half N Hpos Heven) as (Hq & Hq' & HN & Hk).
  pose proof (len_nonneg (rows surf)) as HH.
  split.
  - unfold pull_matrix.
    replace (N - 1 - 1) with (N - 2) by lia. now rewrite Hq, Hq'.
  - eexists. split.
    { rewrite pull_matrix_rows; rewrite ?Hq; [reflexivity | lia | lia]. }
    destruct (window_shape surf mx my (N / 2 - 1) Hwf Hk Hx1 Hx2
                ltac:(lia) Hy2) as (Hlen & Hrows & _).
    rewrite HN in Hlen, Hrows. split; assumption.
Qed.

Lemma pull_matrix_even_size_witness :
  pull_matrix 4 Toy.surf5 (2, 2) = pull_matrix (4 - 1) Toy.surf5 (2, 2) /\
  exists mat,
    pull_matrix 4 Toy.surf5 (2, 2) = Ok mat /\
    Py.len mat = 4 - 1 /\
    forall row, In row mat -> Py.len row = 4 - 1.
Proof.
  apply (pull_matrix_even_size 4 2 2 Toy.surf5).
  - repeat constructor.
  - lia.
  - reflexivity.
  - vm_compute. discriminate.
  - vm_compute. reflexivity.
  - vm_compute. discriminate.
  - vm_compute. reflexivity.
Defined.

(** X2. A maximum closer than [k = (N-1)/2] to the left edge of a surface
    that is at least [N] wide: the start of the column slice is negative and
    is counted from the right end, so every row of the returned window is
    empty. No error is raised. *)
Theorem pull_matrix_left_edge_empty (N mx my : Z) (surf : surface) :
  wf_ndarray surf -> 0 < N -> Z.odd N = true ->
  0 <= mx -> mx < (N - 1) / 2 -> N <= ncols surf ->
  0 <= my -> my + (N - 1) / 2 < Py.len (rows surf) ->
  exists mat,
    pull_matrix N surf (mx, my) = Ok mat /\
    Py.len mat = N /\
    forall row, In row mat -> row = [].
Proof.
  intros Hwf Hpos Hodd Hx0 Hx1 HW Hy0 Hy1.
  destruct (odd_half N Hpos Hodd) as (Hq & HN & Hk).
  eexists. split.
  { rewrite pull_matrix_rows; rewrite ?Hq; [reflexivity | lia | lia]. }
  split.
  - unfold Py.len. rewrite length_map, range_length. lia.
  - intros row Hin. apply in_map_iff in Hin. destruct Hin as (i & <- & Hi).
    apply range_In in Hi.
    apply slice_wrapped_empty; rewrite ?row_at_len; try assumption; lia.
Qed.

Lemma pull_matrix_left_edge_empty_witness :
  exists mat,
    pull_matrix 3 Toy.surf5 (0, 2) = Ok mat /\
    Py.len mat = 3 /\
    forall row, In row mat -> row = [].
Proof.
  apply (pull_matrix_left_edge_empty 3 0 2 Toy.surf5).
  - repeat constructor.
  - lia.
  - reflexivity.
  - lia.
  - vm_compute. reflexivity.
  - vm_compute. discriminate.
  - lia.
  - vm_compute. reflexivity.
Defined.

(** X3. A maximum closer than [k = (N-1)/2] to the right edge: the column
    slice is cut at the edge, so the window has [N] rows of only
    [W - (mx - k)] entries (fewer than [N]); the entries present are the
    surface values from column [mx - k] on. No error is raised. *)
Theorem pull_matrix_right_edge_truncated (N mx my : Z) (surf : surface) :
  wf_ndarray surf -> 0 < N -> Z.odd N = true ->
  (N - 1) / 2 <= mx -> mx < ncols surf -> ncols surf <= mx + (N - 1) / 2 ->
  (N - 1) / 2 <= my -> my + (N - 1) / 2 < Py.len (rows surf) ->
  exists mat,
    pull_matrix N surf (mx, my) = Ok mat /\
    Py.len mat = N /\
    (forall row, In row mat ->
       Py.len row = ncols surf - (mx - (N - 1) / 2) /\ Py.len row < N) /\
    forall r c, 0 <= r < N -> 0 <= c < ncols surf - (mx - (N - 1) / 2) ->
      entry 0%Q mat r c
      = entry 0%Q (rows surf) (my - (N - 1) / 2 + r) (mx - (N - 1) / 2 + c).
Proof.
  intros Hwf Hpos Hodd Hx1 Hx2 Hx3 Hy1 Hy2.
  destruct (odd_half N Hpos Hodd) as (Hq & HN & Hk).
  pose proof (len_nonneg (rows surf)) as HH.
  set (k := (N - 1) / 2) in *.
  assert (Hslice : forall i, my - k <= i < my + k + 1 ->
            Py.slice (row_at surf i) (mx - k) (mx + k + 1)
            = skipn (Z.to_nat (mx - k)) (row_at surf i)).
  { intros i Hi. apply slice_to_end; rewrite ?row_at_len; try assumption; lia. }
  eexists. split.
  { rewrite pull_matrix_rows; rewrite ?Hq; [reflexivity | lia | lia]. }
  fold k. split; [|split].
  - unfold Py.len. rewrite length_map, range_length. lia.
  - intros row Hin. apply in_map_iff in Hin. destruct Hin as (i & <- & Hi).
    apply range_In in Hi. rewrite Hslice by assumption.
    assert (Hrow : Py.len (row_at surf i) = ncols surf)
      by (apply row_at_len; [assumption | lia]).
    unfold Py.len in *. rewrite length_skipn. lia.
  - intros r c Hr Hc. unfold entry.
    set (F := fun i => Py.slice (row_at surf i) (mx - k) (mx + k + 1)).
    rewrite (nth_indep _ [] (F 0)) by (rewrite length_map, range_length; lia).
    rewrite map_nth, range_nth by lia. subst F. cbv beta.
    rewrite Z2Nat.id by lia. rewrite Hslice by lia.
    rewrite nth_skipn. unfold row_at.
    destruct (Z.ltb_spec (my - k + r) 0); [lia|].
    f_equal. lia.
Qed.

Lemma pull_matrix_right_edge_truncated_witness :
  exists mat,
    pull_matrix 3 Toy.surf5 (4, 2) = Ok mat /\
    Py.len mat = 3 /\
    (forall row, In row mat ->
       Py.len row = ncols Toy.surf5 - (4 - (3 - 1) / 2) /\ Py.len row < 3) /\
    forall r c, 0 <= r < 3 -> 0 <= c < ncols Toy.surf5 - (4 - (3 - 1) / 2) ->
      entry 0%Q mat r c
      = entry 0%Q (rows Toy.surf5) (2 - (3 - 1) / 2 + r) (4 - (3 - 1) / 2 + c).
Proof.
  apply (pull_matrix_right_edge_truncated 3 4 2 Toy.surf5).
  - repeat constructor.
  - lia.
  - reflexivity.
  - vm_compute. discriminate.
  - vm_compute. reflexivity.
  - vm_compute. discriminate.
  - vm_compute. discriminate.
  - vm_compute. reflexivity.
Defined.

(* ================================================================== *)
(** ** Further properties of the region of interest *)

Lemma slice_len_spec {A : Type} (l : list A) (a b : Z) :
  Py.len (Py.slice l a b) = Py.slice_len (Py.len l) a b.
Proof.
  unfold Py.slice, Py.slice_len, Py.slice_bound. cbv zeta.
  pose proof (len_nonneg l) as Hl. unfold Py.len in *.
  rewrite length_firstn, length_skipn.
  destruct (Z.ltb_spec a 0); destruct (Z.ltb_spec b 0); lia.
Qed.

Lemma shape_roi_of (frame templ : image) (pos : position) (offset : Z)
      (xs xe ys ye : Z) :
  roi_bounds (Py.len (rows frame)) (ncols frame)
             (Py.len (rows templ)) (ncols templ) pos offset
  = (xs, xe, ys, ye) ->
  roi_of frame templ pos offset = slice2 frame ys ye xs xe /\
  shape (roi_of frame templ pos offset)
  = (Py.slice_len (Py.len (rows frame)) ys ye,
     Py.slice_len (ncols frame) xs xe).
Proof.
  intros Hroi. unfold roi_of, shape. rewrite Hroi.
  split; [reflexivity|].
  cbn [slice2 rows ncols]. unfold Py.len at 1. rewrite length_map.
  fold (Py.len (Py.slice (rows frame) ys ye)). now rewrite slice_len_spec.
Qed.

(** X4. The end bounds are clamped to the frame dimension minus one and the
    slice excludes its end, so the region of interest never spans a whole
    frame axis: it has at most [fh - 1] rows and at most [fw - 1] columns,
    whatever the position and the margin. *)
Theorem roi_smaller_than_frame (frame templ : image) (pos : position)
        (offset : Z) :
  0 <= ncols frame ->
  fst (shape (roi_of frame templ pos offset))
  <= Z.max 0 (Py.len (rows frame) - 1) /\
  snd (shape (roi_of frame templ pos offset))
  <= Z.max 0 (ncols frame - 1).
Proof.
  intros HW.
  destruct (roi_bounds (Py.len (rows frame)) (ncols frame)
                       (Py.len (rows templ)) (ncols templ) pos offset)
    as [[[xs xe] ys] ye] eqn:Hroi.
  destruct (shape_roi_of _ _ _ _ _ _ _ _ Hroi) as (_ & ->). cbn [fst snd].
  pose proof (len_nonneg (rows frame)) as HH.
  rewrite roi_bounds_raw in Hroi.
  injection Hroi as Hxs Hxe Hys Hye.
  assert (Hx : 0 <= xs /\ xe <= ncols frame - 1) by lia.
  assert (Hy : 0 <= ys /\ ye <= Py.len (rows frame) - 1) by lia.
  clear Hxs Hxe Hys Hye.
  unfold Py.slice_len, Py.slice_bound. split.
  - destruct (Z.ltb_spec ys 0); destruct (Z.ltb_spec ye 0); lia.
  - destruct (Z.ltb_spec xs 0); destruct (Z.ltb_spec xe 0); lia.
Qed.

Lemma roi_smaller_than_frame_witness :
  fst (shape (roi_of Toy.frame7 Toy.templ3 (inject_Z 3, inject_Z 3) 50))
  <= Z.max 0 (Py.len (rows Toy.frame7) - 1) /\
  snd (shape (roi_of Toy.frame7 Toy.templ3 (inject_Z 3, inject_Z 3) 50))
  <= Z.max 0 (ncols Toy.frame7 - 1).
Proof.
  apply (roi_smaller_than_frame Toy.frame7 Toy.templ3 (inject_Z 3, inject_Z 3) 50).
  vm_compute. discriminate.
Defined.


(** The rounded raw bounds of an integer position, for quantities of
    moderate size: the binary64 operations are exact there. *)
Lemma round_lo_integer (p : Q) (x w m : Z) :
  (p == inject_Z x)%Q ->
  Z.abs x < 2 ^ 40 -> Z.abs w < 2 ^ 40 -> Z.abs m < 2 ^ 40 ->
  round_lo p w m = around (inject_Z (2 * x - w - 2 * m) / 2).
Proof.
  intros Hp Hx Hw Hm.
  destruct (round_lo_between p (2 * x) (2 * x) w m) as (v & H1 & H2 & ->);
    try lia; try (rewrite half_double, Hp; apply Qle_refl).
  apply around_comp. now apply Qle_antisym.
Qed.

Lemma round_hi_integer (p : Q) (x w m : Z) :
  (p == inject_Z x)%Q ->
  Z.abs x < 2 ^ 40 -> Z.abs w < 2 ^ 40 -> Z.abs m < 2 ^ 40 ->
  round_hi p w m = around (inject_Z (2 * x + w + 2 * m) / 2).
Proof.
  intros Hp Hx Hw Hm.
  destruct (round_hi_between p (2 * x) (2 * x) w m) as (v & H1 & H2 & ->);
    try lia; try (rewrite half_double, Hp; apply Qle_refl).
  apply around_comp. now apply Qle_antisym.
Qed.

Lemma around_even_numerator (n : Z) : around (inject_Z (2 * n) / 2) = n.
Proof. rewrite (around_comp _ _ (half_double n)). apply around_Z. Qed.

Lemma around_odd_numerator (n : Z) :
  around (inject_Z (2 * n + 1) / 2) = if Z.even n then n else n + 1.
Proof.
  rewrite <- around_half. apply around_comp.
  rewrite inject_Z_plus, inject_Z_mult. field.
Qed.

(** X5. For a template with even width [2 hw] and even height [2 hh] at an
    integer position [(x, y)] (all quantities below [2^40] in magnitude),
    nothing is rounded: the bounds are [x - hw - margin] and
    [x + hw + margin] (and likewise in [y]), clamped at 0 and at the frame
    dimension minus one. *)
Theorem roi_bounds_even_template (fh fw hh hw : Z) (pos : position)
        (margin x y : Z) :
  (fst pos == inject_Z x)%Q -> (snd pos == inject_Z y)%Q ->
  Z.abs x < 2 ^ 40 -> Z.abs y < 2 ^ 40 ->
  0 <= hw < 2 ^ 39 -> 0 <= hh < 2 ^ 39 -> Z.abs margin < 2 ^ 40 ->
  roi_bounds fh fw (2 * hh) (2 * hw) pos margin
  = (Z.max 0 (x - hw - margin), Z.min (fw - 1) (x + hw + margin),
     Z.max 0 (y - hh - margin), Z.min (fh - 1) (y + hh + margin)).
Proof.
  intros Hx Hy Hnx Hny Hhw Hhh Hm. rewrite roi_bounds_raw.
  rewrite (round_lo_integer _ x), (round_hi_integer _ x),
          (round_lo_integer _ y), (round_hi_integer _ y)
    by (assumption || lia).
  replace (2 * x - 2 * hw - 2 * margin) with (2 * (x - hw - margin)) by lia.
  replace (2 * x + 2 * hw + 2 * margin) with (2 * (x + hw + margin)) by lia.
  replace (2 * y - 2 * hh - 2 * margin) with (2 * (y - hh - margin)) by lia.
  replace (2 * y + 2 * hh + 2 * margin) with (2 * (y + hh + margin)) by lia.
  now rewrite !around_even_numerator.
Qed.

Lemma roi_bounds_even_template_witness :
  roi_bounds 100 100 (2 * 5) (2 * 5) (inject_Z 50, inject_Z 97) 20
  = (Z.max 0 (50 - 5 - 20), Z.min (100 - 1) (50 + 5 + 20),
     Z.max 0 (97 - 5 - 20), Z.min (100 - 1) (97 + 5 + 20)).
Proof.
  apply (roi_bounds_even_template 100 100 5 5 (inject_Z 50, inject_Z 97) 20 50 97);
    (reflexivity || lia).
Defined.

(** X6. For a template with odd width [2 hw + 1] and odd height [2 hh + 1]
    at an integer position [(x, y)] (all quantities below [2^40] in
    magnitude), both raw bounds are half-integers and [np.around] sends each
    to its even neighbour. Before clamping the region therefore reaches
    [hw + margin] columns to each side of [x] when [x + hw + margin] is even
    and [hw + margin + 1] columns when it is odd (likewise in [y]): its
    unclamped width is [w + 2 margin - 1] or [w + 2 margin + 1], never
    [w + 2 margin]. *)
Theorem roi_bounds_odd_template (fh fw hh hw : Z) (pos : position)
        (margin x y : Z) :
  (fst pos == inject_Z x)%Q -> (snd pos == inject_Z y)%Q ->
  Z.abs x < 2 ^ 40 -> Z.abs y < 2 ^ 40 ->
  0 <= hw < 2 ^ 39 -> 0 <= hh < 2 ^ 39 -> Z.abs margin < 2 ^ 40 ->
  roi_bounds fh fw (2 * hh + 1) (2 * hw + 1) pos margin
  = (Z.max 0 (if Z.even (x + hw + margin)
              then x - hw - margin else x - hw - margin - 1),
     Z.min (fw - 1) (if Z.even (x + hw + margin)
                     then x + hw + margin else x + hw + margin + 1),
     Z.max 0 (if Z.even (y + hh + margin)
              then y - hh - margin else y - hh - margin - 1),
     Z.min (fh - 1) (if Z.even (y + hh + margin)
                     then y + hh + margin else y + hh + margin + 1)).
Proof.
  intros Hx Hy Hnx Hny Hhw Hhh Hm. rewrite roi_bounds_raw.
  rewrite (round_lo_integer _ x), (round_hi_integer _ x),
          (round_lo_integer _ y), (round_hi_integer _ y)
    by (assumption || lia).
  replace (2 * x - (2 * hw + 1) - 2 * margin)
    with (2 * (x - hw - margin - 1) + 1) by lia.
  replace (2 * x + (2 * hw + 1) + 2 * margin)
    with (2 * (x + hw + margin) + 1) by lia.
  replace (2 * y - (2 * hh + 1) - 2 * margin)
    with (2 * (y - hh - margin - 1) + 1) by lia.
  replace (2 * y + (2 * hh + 1) + 2 * margin)
    with (2 * (y + hh + margin) + 1) by lia.
  rewrite !around_odd_numerator.
  replace (x - hw - margin - 1)
    with (x + hw + margin - (2 * (hw + margin) + 1)) by lia.
  replace (y - hh - margin - 1)
    with (y + hh + margin - (2 * (hh + margin) + 1)) by lia.
  rewrite !even_shift.
  destruct (Z.even (x + hw + margin)); destruct (Z.even (y + hh + margin));
    cbn [negb];
    repeat match goal with |- (_, _) = (_, _) => apply f_equal2 end; lia.
Qed.

Lemma roi_bounds_odd_template_witness :
  roi_bounds 100 100 (2 * 5 + 1) (2 * 5 + 1) (inject_Z 50, inject_Z 45) 20
  = (Z.max 0 (if Z.even (50 + 5 + 20) then 50 - 5 - 20 else 50 - 5 - 20 - 1),
     Z.min (100 - 1) (if Z.even (50 + 5 + 20) then 50 + 5 + 20 else 50 + 5 + 20 + 1),
     Z.max 0 (if Z.even (45 + 5 + 20) then 45 - 5 - 20 else 45 - 5 - 20 - 1),
     Z.min (100 - 1) (if Z.even (45 + 5 + 20) then 45 + 5 + 20 else 45 + 5 + 20 + 1)).
Proof.
  apply (roi_bounds_odd_template 100 100 5 5 (inject_Z 50, inject_Z 45) 20 50 45);
    (reflexivity || lia).
Defined.

(** X7. A position left of the frame whose raw end bound
    [pos.x + w/2 + margin] lies between [-(fw - 1)] and [-1]: the start
    bound is clamped to 0 and the rounded end bound [r], which is negative
    and above [-fw], is counted from the right edge by the slice, so the
    region of interest is not empty: it is [fw + r] columns wide. *)
Theorem roi_left_of_frame (frame templ : image) (pos : position) (offset : Z) :
  0 <= ncols templ < 2 ^ 40 -> 0 <= offset < 2 ^ 40 ->
  0 < ncols frame < 2 ^ 40 ->
  (- inject_Z (ncols frame - 1)
   <= fst pos + inject_Z (ncols templ) / 2 + inject_Z offset)%Q ->
  (fst pos + inject_Z (ncols templ) / 2 + inject_Z offset <= - (1))%Q ->
  - ncols frame < round_hi (fst pos) (ncols templ) offset < 0 /\
  snd (shape (roi_of frame templ pos offset))
  = ncols frame + round_hi (fst pos) (ncols templ) offset /\
  0 < snd (shape (roi_of frame templ pos offset)).
Proof.
  intros Hw Hoff Hfw Hlo Hhi.
  set (a := - (2 * (ncols frame - 1) + ncols templ + 2 * offset)).
  set (b := - (2 + ncols templ + 2 * offset)).
  assert (Ea : (inject_Z a / 2
                == - (inject_Z (ncols frame - 1) + inject_Z (ncols templ) / 2
                      + inject_Z offset))%Q).
  { subst a. rewrite inject_Z_opp, !inject_Z_plus, !inject_Z_mult. field. }
  assert (Eb : (inject_Z b / 2
                == - (1 + inject_Z (ncols templ) / 2 + inject_Z offset))%Q).
  { subst b. rewrite inject_Z_opp, !inject_Z_plus, !inject_Z_mult. field. }
  assert (Ha : (inject_Z a / 2 <= fst pos)%Q).
  { rewrite Ea. generalize dependent (inject_Z (ncols templ) / 2)%Q.
    intros. lra. }
  assert (Hb : (fst pos <= inject_Z b / 2)%Q).
  { rewrite Eb. generalize dependent (inject_Z (ncols templ) / 2)%Q.
    intros. lra. }
  assert (Hr : - ncols frame < round_hi (fst pos) (ncols templ) offset < 0).
  { destruct (round_hi_between (fst pos) a b (ncols templ) offset Ha Hb)
      as (v & Hv1 & Hv2 & ->); try (subst a b; lia).
    assert (- (ncols frame - 1) <= around v).
    { apply around_ge. rewrite <- half_double.
      replace (2 * - (ncols frame - 1))
        with (a + ncols templ + 2 * offset) by (subst a; lia).
      exact Hv1. }
    assert (around v <= - 1); [|lia].
    apply around_le. rewrite <- half_double.
    replace (2 * - 1) with (b + ncols templ + 2 * offset) by (subst b; lia).
    exact Hv2. }
  assert (Hl : round_lo (fst pos) (ncols templ) offset <= 0).
  { destruct (round_lo_between (fst pos) a b (ncols templ) offset Ha Hb)
      as (v & _ & Hv2 & ->); try (subst a b; lia).
    apply around_le. apply Qle_trans with (1 := Hv2).
    rewrite <- (half_double 0). apply Qmult_le_compat_r; [|discriminate].
    rewrite <- Zle_Qle. subst b. lia. }
  destruct (roi_bounds (Py.len (rows frame)) (ncols frame)
                       (Py.len (rows templ)) (ncols templ) pos offset)
    as [[[xs xe] ys] ye] eqn:Hroi.
  destruct (shape_roi_of _ _ _ _ _ _ _ _ Hroi) as (_ & ->). cbn [fst snd].
  rewrite roi_bounds_raw in Hroi. injection Hroi as Hxs Hxe _ _.
  set (r := round_hi (fst pos) (ncols templ) offset) in *.
  assert (Exs : xs = 0) by lia. assert (Exe : xe = r) by lia.
  split; [exact Hr|].
  rewrite Exs, Exe. unfold Py.slice_len, Py.slice_bound.
  destruct (Z.ltb_spec 0 0); [lia|].
  destruct (Z.ltb_spec r 0); lia.
Qed.

Lemma roi_left_of_frame_witness :
  - ncols Toy.frame7 < round_hi (fst (inject_Z (-6), inject_Z 3)) (ncols Toy.templ3) 2 < 0 /\
  snd (shape (roi_of Toy.frame7 Toy.templ3 (inject_Z (-6), inject_Z 3) 2))
  = ncols Toy.frame7 + round_hi (fst (inject_Z (-6), inject_Z 3)) (ncols Toy.templ3) 2 /\
  0 < snd (shape (roi_of Toy.frame7 Toy.templ3 (inject_Z (-6), inject_Z 3) 2)).
Proof.
  apply (roi_left_of_frame Toy.frame7 Toy.templ3 (inject_Z (-6), inject_Z 3) 2);
    vm_compute; (split; reflexivity || discriminate) || discriminate.
Defined.

(* ================================================================== *)
(** ** Further properties of the per-frame step and of the trackers *)

Lemma find_max_subpixel_roi_matched (P : Primitives) (frame templ : image)
      (pos : position) (offset N : Z) (res : surface) (loc : Z * Z) :
  matchTemplate P (roi_of frame templ pos offset) templ = Ok res ->
  minMaxLoc P res = Ok loc ->
  find_max_subpixel_roi P frame templ pos offset N
  = (mat <- pull_matrix N res loc ;;
     f <- interp2d P (arange 0 N) (arange 0 N) mat ;;
     max_loc2 <- fmin P (fun d : Q * Q => (- f (fst d) (snd d))%Q)
                      ((inject_Z (N - 1) / 2)%Q, (inject_Z (N - 1) / 2)%Q) ;;
     Ok ((inject_Z (fst (fst (fst
              (roi_bounds (Py.len (rows frame)) (ncols frame)
                          (Py.len (rows templ)) (ncols templ) pos offset))))
          + (inject_Z (fst loc) - (2 - fst max_loc2)
             + inject_Z (ncols templ) / 2))%Q,
         (inject_Z (snd (fst
              (roi_bounds (Py.len (rows frame)) (ncols frame)
                          (Py.len (rows templ)) (ncols templ) pos offset)))
          + (inject_Z (snd loc) - (2 - snd max_loc2)
             + inject_Z (Py.len (rows templ)) / 2))%Q)).
Proof.
  unfold roi_of, find_max_subpixel_roi, shape.
  destruct (roi_bounds (Py.len (rows frame)) (ncols frame)
                       (Py.len (rows templ)) (ncols templ) pos offset)
    as [[[xs xe] ys] ye].
  intros -> . cbn [bind]. intros ->. reflexivity.
Qed.

Lemma pull_matrix_bottom_raise (N mx my : Z) (surf : surface) :
  0 < N -> Z.odd N = true ->
  0 <= my < Py.len (rows surf) ->
  Py.len (rows surf) <= my + (N - 1) / 2 ->
  pull_matrix N surf (mx, my) = Raise IndexError.
Proof.
  intros Hpos Hodd Hmy Hge.
  destruct (odd_half N Hpos Hodd) as (Hq & HN & Hk).
  unfold pull_matrix. cbn [fst snd]. rewrite Hq.
  apply pull_rows_raise. apply Exists_exists.
  exists (Py.len (rows surf)). split; [apply range_In; lia | lia].
Qed.

(** X8. A correlation peak within [(N-1)/2] rows of the bottom of the
    correlation surface makes the per-frame step raise [IndexError],
    whatever the interpolation and minimisation routines are, and
    [template_tracking] raises it too when that frame comes first: no
    position is returned for any frame. *)
Theorem peak_near_bottom_raises (P : Primitives) (frame templ : image)
        (pos : position) (offset N : Z) (res : surface) (mx my : Z)
        (rest : list image) :
  matchTemplate P (roi_of frame templ pos offset) templ = Ok res ->
  minMaxLoc P res = Ok (mx, my) ->
  0 < N -> Z.odd N = true ->
  0 <= my < Py.len (rows res) ->
  Py.len (rows res) <= my + (N - 1) / 2 ->
  find_max_subpixel_roi P frame templ pos offset N = Raise IndexError /\
  template_tracking P (frame :: rest) templ pos offset N = Raise IndexError.
Proof.
  intros Hres Hloc Hpos Hodd Hmy Hge.
  assert (Hstep : find_max_subpixel_roi P frame templ pos offset N
                  = Raise IndexError).
  { rewrite (find_max_subpixel_roi_matched P frame templ pos offset N res
               (mx, my) Hres Hloc).
    now rewrite pull_matrix_bottom_raise. }
  split; [exact Hstep|].
  unfold template_tracking. cbn [tracking_loop]. now rewrite Hstep.
Qed.

Lemma peak_near_bottom_raises_witness :
  find_max_subpixel_roi Toy.prims Toy.frame7 Toy.templ3
                        (inject_Z 3, inject_Z 3) 2 5 = Raise IndexError /\
  template_tracking Toy.prims (Toy.frame7 :: [Toy.frame7]) Toy.templ3
                    (inject_Z 3, inject_Z 3) 2 5 = Raise IndexError.
Proof.
  let r := eval vm_compute in
        (matchTemplate Toy.prims
           (roi_of Toy.frame7 Toy.templ3 (inject_Z 3, inject_Z 3) 2) Toy.templ3) in
  match r with
  | Ok ?res =>
      apply (peak_near_bottom_raises Toy.prims Toy.frame7 Toy.templ3
               (inject_Z 3, inject_Z 3) 2 5 res 2 2 [Toy.frame7])
  end.
  - vm_compute. reflexivity.
  - vm_compute. reflexivity.
  - lia.
  - reflexivity.
  - vm_compute. split; [discriminate | reflexivity].
  - vm_compute. discriminate.
Defined.

(** X9. The remap uses the constant 2 whatever the window size. When the
    minimiser returns its starting point, the centre
    [((N-1)/2, (N-1)/2)] of the window, the position returned is the peak
    location plus half the template size plus the origin of the region,
    shifted by [(N-1)/2 - 2] in both coordinates: no shift for [N = 5], a
    shift of 3 for the default [N = 11]. *)
Theorem remap_at_window_centre (P : Primitives) (frame templ : image)
        (pos : position) (offset N : Z) (xs xe ys ye : Z) (res : surface)
        (mx my : Z) (mat : list (list Q)) (f : Q -> Q -> Q) :
  roi_bounds (Py.len (rows frame)) (ncols frame)
             (Py.len (rows templ)) (ncols templ) pos offset
  = (xs, xe, ys, ye) ->
  matchTemplate P (roi_of frame templ pos offset) templ = Ok res ->
  minMaxLoc P res = Ok (mx, my) ->
  pull_matrix N res (mx, my) = Ok mat ->
  interp2d P (arange 0 N) (arange 0 N) mat = Ok f ->
  fmin P (fun d => (- f (fst d) (snd d))%Q)
       ((inject_Z (N - 1) / 2)%Q, (inject_Z (N - 1) / 2)%Q)
  = Ok ((inject_Z (N - 1) / 2)%Q, (inject_Z (N - 1) / 2)%Q) ->
  exists nx ny,
    find_max_subpixel_roi P frame templ pos offset N = Ok (nx, ny) /\
    (nx == inject_Z (xs + mx) + inject_Z (ncols templ) / 2
           + (inject_Z (N - 1) / 2 - 2))%Q /\
    (ny == inject_Z (ys + my) + inject_Z (Py.len (rows templ)) / 2
           + (inject_Z (N - 1) / 2 - 2))%Q.
Proof.
  intros Hroi Hres Hloc Hmat Hf Hmin.
  rewrite (find_max_subpixel_roi_matched P frame templ pos offset N res
             (mx, my) Hres Hloc).
  rewrite Hmat. cbn [bind]. rewrite Hf. cbn [bind]. rewrite Hmin. cbn [bind].
  rewrite Hroi. cbn [fst snd].
  eexists. eexists. split; [reflexivity|].
  split; rewrite inject_Z_plus; ring.
Qed.

Lemma remap_at_window_centre_witness :
  exists nx ny,
    find_max_subpixel_roi Toy.prims Toy.frame7 Toy.templ3
                          (inject_Z 3, inject_Z 3) 2 3 = Ok (nx, ny) /\
    (nx == inject_Z (0 + 2) + inject_Z (ncols Toy.templ3) / 2
           + (inject_Z (3 - 1) / 2 - 2))%Q /\
    (ny == inject_Z (0 + 2) + inject_Z (Py.len (rows Toy.templ3)) / 2
           + (inject_Z (3 - 1) / 2 - 2))%Q.
Proof.
  let r := eval vm_compute in
        (matchTemplate Toy.prims
           (roi_of Toy.frame7 Toy.templ3 (inject_Z 3, inject_Z 3) 2) Toy.templ3) in
  match r with
  | Ok ?res =>
      eapply (remap_at_window_centre Toy.prims Toy.frame7 Toy.templ3
                (inject_Z 3, inject_Z 3) 2 3 0 6 0 6 res 2 2 _ _)
  end.
  - vm_compute. reflexivity.
  - vm_compute. reflexivity.
  - vm_compute. reflexivity.
  - reflexivity.
  - reflexivity.
  - vm_compute. reflexivity.
Defined.

Lemma last_cons_default {A : Type} (p d : A) (t : list A) :
  last (p :: t) d = last t p.
Proof.
  revert p d. induction t as [|q t IH]; intros p d; [reflexivity|].
  change (last (p :: q :: t) d) with (last (q :: t) d).
  rewrite IH. symmetry. apply IH.
Qed.

Lemma track_run_app (step : image -> position -> result position)
      (frames1 frames2 : list image) :
  forall curr,
    track_run step (frames1 ++ frames2) curr
    = (t1 <- track_run step frames1 curr ;;
       t2 <- track_run step frames2 (last t1 curr) ;;
       Ok (t1 ++ t2)).
Proof.
  induction frames1 as [|f rest IH]; intros curr; cbn [app track_run bind].
  - cbn [last]. destruct (track_run step frames2 curr); reflexivity.
  - destruct (step f curr) as [p|e]; cbn [bind]; [|reflexivity].
    rewrite IH.
    destruct (track_run step rest p) as [t1|e]; cbn [bind]; [|reflexivity].
    rewrite last_cons_default.
    destruct (track_run step frames2 (last t1 p)); reflexivity.
Qed.

Lemma dual_run_app (stepl stepr : image -> position -> result position)
      (frames1 frames2 : list image) :
  forall pl pr,
    dual_run stepl stepr (frames1 ++ frames2) pl pr
    = (t1 <- dual_run stepl stepr frames1 pl pr ;;
       t2 <- dual_run stepl stepr frames2
               (fst (last t1 (pl, pr))) (snd (last t1 (pl, pr))) ;;
       Ok (t1 ++ t2)).
Proof.
  induction frames1 as [|f rest IH]; intros pl pr; cbn [app dual_run bind].
  - cbn [last fst snd]. destruct (dual_run stepl stepr frames2 pl pr); reflexivity.
  - destruct (stepl f pl) as [l|e]; cbn [bind]; [|reflexivity].
    destruct (stepr f pr) as [r|e]; cbn [bind]; [|reflexivity].
    rewrite IH.
    destruct (dual_run stepl stepr rest l r) as [t1|e]; cbn [bind];
      [|reflexivity].
    rewrite last_cons_default. cbn [fst snd].
    destruct (dual_run stepl stepr frames2 _ _); reflexivity.
Qed.

(** X10. Tracking a sequence in two parts: [template_tracking] on
    [frames1 ++ frames2] is [template_tracking] on [frames1], followed by
    [template_tracking] on [frames2] started from the last position of the
    first part (from the initial position when [frames1] is empty), with the
    two trajectories concatenated. An error in the first part is the result
    of the whole run, whatever [frames2] holds. *)
Theorem template_tracking_app (P : Primitives) (frames1 frames2 : list image)
        (template : image) (init : position) (off sz : Z) :
  template_tracking P (frames1 ++ frames2) template init off sz
  = (t1 <- template_tracking P frames1 template init off sz ;;
     t2 <- template_tracking P frames2 template (last t1 init) off sz ;;
     Ok (t1 ++ t2)).
Proof.
  rewrite !template_tracking_run, track_run_app.
  destruct (track_run _ frames1 init) as [t1|e]; cbn [bind]; [|reflexivity].
  now rewrite template_tracking_run.
Qed.

(** X11. The same for [template_tracking_dual]: the run on
    [frames1 ++ frames2] is the run on [frames1] followed by the run on
    [frames2] started from the last pair of positions of the first part. *)
Theorem template_tracking_dual_app (P : Primitives)
        (frames1 frames2 : list image) (left_template right_template : image)
        (inits : position * position) (off sz : Z) :
  template_tracking_dual P (frames1 ++ frames2) left_template right_template
                         inits off sz
  = (t1 <- template_tracking_dual P frames1 left_template right_template
             inits off sz ;;
     t2 <- template_tracking_dual P frames2 left_template right_template
             (last t1 inits) off sz ;;
     Ok (t1 ++ t2)).
Proof.
  rewrite !template_tracking_dual_run, dual_run_app.
  destruct inits as [pl pr]. cbn [fst snd].
  destruct (dual_run _ _ frames1 pl pr) as [t1|e]; cbn [bind]; [|reflexivity].
  now rewrite template_tracking_dual_run.
Qed.

Lemma dual_run_raise_single (stepl stepr : image -> position -> result position)
      (frames : list image) :
  forall pl pr e,
    dual_run stepl stepr frames pl pr = Raise e ->
    track_run stepl frames pl = Raise e \/ track_run stepr frames pr = Raise e.
Proof.
  induction frames as [|f rest IH]; intros pl pr e Hrun;
    cbn [dual_run track_run] in *.
  - discriminate.
  - destruct (stepl f pl) as [l|e1]; cbn [bind] in *.
    + destruct (stepr f pr) as [r|e2]; cbn [bind] in *.
      * destruct (dual_run stepl stepr rest l r) as [t|e3] eqn:Hrest;
          cbn [bind] in Hrun; [discriminate|].
        injection Hrun as ->.
        destruct (IH _ _ _ Hrest) as [Hl|Hr]; [left | right].
        -- now rewrite Hl.
        -- now rewrite Hr.
      * right. injection Hrun as ->. reflexivity.
    + left. injection Hrun as ->. reflexivity.
Qed.

(** X12. The two trackers of [template_tracking_dual] live and die
    together: it returns a result exactly when [template_tracking] returns
    one for the left template and one for the right template, and an error
    it raises is the error raised by one of the two single trackers. No
    trajectory is returned for the tracker that would have succeeded. *)
Theorem dual_fails_with_either_tracker (P : Primitives) (frames : list image)
        (left_template right_template : image)
        (inits : position * position) (off sz : Z) :
  ((exists pts,
      template_tracking_dual P frames left_template right_template inits off sz
      = Ok pts)
   <->
   (exists l, template_tracking P frames left_template (fst inits) off sz = Ok l)
   /\
   (exists r, template_tracking P frames right_template (snd inits) off sz = Ok r))
  /\
  forall e,
    template_tracking_dual P frames left_template right_template inits off sz
    = Raise e ->
    template_tracking P frames left_template (fst inits) off sz = Raise e \/
    template_tracking P frames right_template (snd inits) off sz = Raise e.
Proof.
  rewrite template_tracking_dual_run, !template_tracking_run. split.
  - split.
    + intros (pts & Hpts). apply dual_run_split in Hpts.
      destruct Hpts as (Hl & Hr). split; eexists; eassumption.
    + intros ((l & Hl) & (r & Hr)). exists (combine l r).
      now apply dual_run_join.
  - intros e. apply dual_run_raise_single.
Qed.

Lemma dual_fails_with_either_tracker_witness :
  template_tracking Toy.prims Toy.frames3 Toy.templ3
                    (fst ((inject_Z 3, inject_Z 3), (inject_Z 3, inject_Z 3)))
                    2 3 = Raise ValueError \/
  template_tracking Toy.prims Toy.frames3 Toy.templ0
                    (snd ((inject_Z 3, inject_Z 3), (inject_Z 3, inject_Z 3)))
                    2 3 = Raise ValueError.
Proof.
  apply (proj2 (dual_fails_with_either_tracker Toy.prims Toy.frames3
                  Toy.templ3 Toy.templ0
                  ((inject_Z 3, inject_Z 3), (inject_Z 3, inject_Z 3)) 2 3)).
  vm_compute. reflexivity.
Defined.

Lemma In_firstn_In {A : Type} (x : A) (n : nat) (l : list A) :
  In x (firstn n l) -> In x l.
Proof.
  revert l. induction n as [|n IH]; intros [|a l]; cbn; try tauto.
  intros [->|H]; [now left | right; now apply IH].
Qed.

Lemma In_skipn_In {A : Type} (x : A) (n : nat) (l : list A) :
  In x (skipn n l) -> In x l.
Proof.
  revert l. induction n as [|n IH]; intros [|a l]; cbn; try tauto.
  intros H. right. now apply IH.
Qed.

Lemma In_slice_In {A : Type} (x : A) (l : list A) (a b : Z) :
  In x (Py.slice l a b) -> In x l.
Proof.
  unfold Py.slice. cbv zeta. intros H.
  apply In_firstn_In in H. now apply In_skipn_In in H.
Qed.

(** X13. When the bounds are ordered and the end bounds are not negative,
    the region of interest is the window of the frame with top-left corner
    [(xs, ys)]: it has [ye - ys] rows of [xe - xs] entries, and its entry at
    row [r], column [c] is the frame sample at row [ys + r], column
    [xs + c]. This is the offset that lines 56-57 add back to the peak. *)
Theorem roi_is_frame_window (frame templ : image) (pos : position)
        (offset : Z) (xs xe ys ye : Z) :
  wf_ndarray frame ->
  roi_bounds (Py.len (rows frame)) (ncols frame)
             (Py.len (rows templ)) (ncols templ) pos offset
  = (xs, xe, ys, ye) ->
  0 <= xe -> 0 <= ye -> xs <= xe -> ys <= ye ->
  shape (roi_of frame templ pos offset) = (ye - ys, xe - xs) /\
  wf_ndarray (roi_of frame templ pos offset) /\
  forall r c, 0 <= r < ye - ys -> 0 <= c < xe - xs ->
    entry 0 (rows (roi_of frame templ pos offset)) r c
    = entry 0 (rows frame) (ys + r) (xs + c).
Proof.
  intros Hwf Hroi Hxe Hye Hx Hy.
  destruct (shape_roi_of _ _ _ _ _ _ _ _ Hroi) as (Hslice & Hshape).
  assert (Hb : 0 <= xs /\ xe <= ncols frame - 1 /\
               0 <= ys /\ ye <= Py.len (rows frame) - 1).
  { unfold roi_bounds in Hroi. cbv zeta in Hroi.
    rewrite !clamp_lo_max, !clamp_hi_min in Hroi.
    injection Hroi as Hxs Hxe' Hys Hye'. lia. }
  destruct Hb as (Hxs0 & Hxe1 & Hys0 & Hye1).
  assert (Hrows : forall row, In row (rows frame) -> Py.len row = ncols frame).
  { unfold wf_ndarray in Hwf. now rewrite Forall_forall in Hwf. }
  assert (HlenS : Py.len (Py.slice (rows frame) ys ye) = ye - ys)
    by (apply slice_inside_len; lia).
  split; [|split].
  - rewrite Hshape. unfold Py.slice_len, Py.slice_bound.
    destruct (Z.ltb_spec ys 0); destruct (Z.ltb_spec ye 0);
      destruct (Z.ltb_spec xs 0); destruct (Z.ltb_spec xe 0);
      try lia. f_equal; lia.
  - rewrite Hslice. unfold wf_ndarray, slice2. cbn [rows ncols].
    apply Forall_forall. intros row Hin.
    apply in_map_iff in Hin. destruct Hin as (row0 & <- & Hin0).
    apply In_slice_In in Hin0. apply Hrows in Hin0.
    rewrite slice_len_spec, Hin0. reflexivity.
  - intros r c Hr Hc. rewrite Hslice. unfold slice2, entry. cbn [rows].
    set (F := fun row : list Z => Py.slice row xs xe).
    rewrite (nth_indep _ [] (F [])).
    2:{ rewrite length_map. unfold Py.len in HlenS. lia. }
    rewrite map_nth. subst F. cbv beta.
    rewrite (slice_inside_nth (rows frame) ys ye r []) by lia.
    assert (Hrow : Py.len (nth (Z.to_nat (ys + r)) (rows frame) [])
                   = ncols frame).
    { apply Hrows. apply nth_In. unfold Py.len in Hye1. lia. }
    apply slice_inside_nth; lia.
Qed.

Lemma roi_is_frame_window_witness :
  shape (roi_of Toy.frame7 Toy.templ3 (inject_Z 4, inject_Z 3) 1) = (6 - 0, 6 - 2) /\
  wf_ndarray (roi_of Toy.frame7 Toy.templ3 (inject_Z 4, inject_Z 3) 1) /\
  forall r c, 0 <= r < 6 - 0 -> 0 <= c < 6 - 2 ->
    entry 0 (rows (roi_of Toy.frame7 Toy.templ3 (inject_Z 4, inject_Z 3) 1)) r c
    = entry 0 (rows Toy.frame7) (0 + r) (2 + c).
Proof.
  apply (roi_is_frame_window Toy.frame7 Toy.templ3 (inject_Z 4, inject_Z 3) 1
           2 6 0 6).
  - repeat constructor.
  - vm_compute. reflexivity.
  - lia.
  - lia.
  - lia.
  - lia.
Defined.
